(** * graphc: a shallow embedding of [src/src/lib.rs]

    The graph is a [TVec<NodeId, TBitSet<NodeId>>]: a vector, indexed by
    node id, of adjacency sets. A [TBitSet] is a set of indices iterated in
    ascending order; it is modelled as a strictly increasing [list nat].
    [usize] values (degrees, [k], colors) are [N]; node ids are [nat]
    indices into the vectors. *)

From Stdlib Require Import NArith Lia Sorted.
From stdpp Require Import base list.

Open Scope nat_scope.

(** [usize::max_value()]. *)
Definition usize_max : N := 18446744073709551615%N.

Abbreviation NodeId := nat (only parsing).

(** ** [TBitSet<I>] *)

Abbreviation bitset := (list nat) (only parsing).

(** [TBitSet::add]: insertion into the ascending list. *)
Fixpoint bs_add (s : bitset) (x : nat) : bitset :=
  match s with
  | [] => [x]
  | y :: r => if x <? y then x :: s else if x =? y then s else y :: bs_add r x
  end.

(** [TBitSet::remove]. *)
Definition bs_remove (s : bitset) (x : nat) : bitset :=
  List.filter (fun y => negb (y =? x)) s.

(** [TBitSet::get]. *)
Definition bs_get (s : bitset) (x : nat) : bool := existsb (Nat.eqb x) s.

(** [TBitSet::element_count]. *)
Definition bs_count (s : bitset) : N := N.of_nat (length s).

(** ** [Graph] *)

Record Graph := mkGraph { nodes : list bitset }.

(** [Graph::new]. *)
Definition new : Graph := mkGraph [].

(** [Graph::check_invariants]: [true] when no assertion fails. *)
Definition check_invariants (g : Graph) : bool :=
  forallb (fun a =>
    forallb (fun b => (b <? length (nodes g)) && bs_get (nodes g !!! b) a)
      (nodes g !!! a))
    (seq 0 (length (nodes g))).

(** [Graph::add_node]: pushes an empty set, returns its index. *)
Definition add_node (g : Graph) : Graph * NodeId :=
  (mkGraph (nodes g ++ [[]]), length (nodes g)).

(** [Graph::add_edge]; [None] is the panic of an out-of-range index. *)
Definition add_edge (g : Graph) (a b : NodeId) : option Graph :=
  if Nat.eqb a b then Some g else
  match nodes g !! a with
  | None => None
  | Some sa =>
      let ns := <[a := bs_add sa b]> (nodes g) in
      match ns !! b with
      | None => None
      | Some sb => Some (mkGraph (<[b := bs_add sb a]> ns))
      end
  end.

(** [Graph::remove_edge]; [None] is the panic of an out-of-range index. *)
Definition remove_edge (g : Graph) (a b : NodeId) : option Graph :=
  match nodes g !! a with
  | None => None
  | Some sa =>
      let ns := <[a := bs_remove sa b]> (nodes g) in
      match ns !! b with
      | None => None
      | Some sb => Some (mkGraph (<[b := bs_remove sb a]> ns))
      end
  end.

(** Graphs built from [Graph::new] by the public operations, each called
    with ids that are valid for the graph at hand. *)
Inductive reachable : Graph -> Prop :=
| reach_new : reachable new
| reach_add_node g : reachable g -> reachable (fst (add_node g))
| reach_add_edge g a b g' :
    reachable g -> a < length (nodes g) -> b < length (nodes g) ->
    add_edge g a b = Some g' -> reachable g'
| reach_remove_edge g a b g' :
    reachable g -> a < length (nodes g) -> b < length (nodes g) ->
    remove_edge g a b = Some g' -> reachable g'.

(** ** [Graph::minimal_coloring] *)

Module Coloring.
  (** [struct Coloring]. *)
Record t := Build { k : N; nodes : list N }.
End Coloring.

(** The local variables of phase 1. The Rust [stack] is a [Vec] pushed
    and popped at its end; here its top is the head of the list. *)
Record P1 := mkP1 {
  st_k : N;
  st_stack : list NodeId;
  st_graph : list bitset;
  st_alive : bitset
}.

(** The inner [for node in alive.iter()] loop: either the first node with
    fewer than [k] neighbours ([continue 'outer]), or the final [min_k].
    [connected + 1] cannot wrap: [connected] is the size of a set of
    [usize] indices. *)
Inductive scan_result := Eliminate (node : NodeId) | Raise (min_k : N).

Fixpoint scan (graph : list bitset) (k : N) (ns : list NodeId) (min_k : N)
  : scan_result :=
  match ns with
  | [] => Raise min_k
  | node :: rest =>
      let connected := bs_count (graph !!! node) in
      if (connected <? k)%N then Eliminate node
      else scan graph k rest
             (if (connected + 1 <? min_k)%N then (connected + 1)%N else min_k)
  end.

(** [alive.remove(node); stack.push(node);
     for other in alive.iter() { graph[other].remove(node); }]. *)
Definition eliminate (st : P1) (node : NodeId) : P1 :=
  let alive' := bs_remove (st_alive st) node in
  {| st_k := st_k st;
     st_stack := node :: st_stack st;
     st_graph := fold_left (fun gr other => alter (fun s => bs_remove s node) other gr)
                   alive' (st_graph st);
     st_alive := alive' |}.

(** One iteration of the body of [while !alive.is_empty()]. *)
Definition outer_body (st : P1) : P1 :=
  match scan (st_graph st) (st_k st) (st_alive st) usize_max with
  | Eliminate node => eliminate st node
  | Raise min_k => {| st_k := min_k; st_stack := st_stack st;
                      st_graph := st_graph st; st_alive := st_alive st |}
  end.

(** The [while] loop, run for at most [fuel] iterations ([None] when the
    fuel runs out; [coloring_terminates] shows the fuel of
    [minimal_coloring] always suffices). *)
Fixpoint phase1 (fuel : nat) (st : P1) : option P1 :=
  match st_alive st with
  | [] => Some st
  | _ :: _ =>
      match fuel with
      | 0 => None
      | S f => phase1 f (outer_body st)
      end
  end.

(** [(0..k).collect::<TBitSet<usize>>()]. *)
Definition range_set (k : N) : list N := map N.of_nat (seq 0 (N.to_nat k)).

(** [TBitSet<usize>::remove]. *)
Definition colors_remove (s : list N) (c : N) : list N :=
  List.filter (fun x => negb (x =? c)%N) s.

(** The [while let Some(node) = stack.pop()] loop; [None] is the panic of
    [unwrap]. *)
Fixpoint phase2 (graph : list bitset) (k : N) (stack : list NodeId) (colors : list N)
  : option (list N) :=
  match stack with
  | [] => Some colors
  | node :: rest =>
      let allowed := fold_left (fun al other => colors_remove al (colors !!! other))
                       (graph !!! node) (range_set k) in
      match allowed with
      | [] => None
      | c :: _ => phase2 graph k rest (<[node := c]> colors)
      end
  end.

Definition init_state (g : Graph) : P1 :=
  {| st_k := 0%N; st_stack := []; st_graph := nodes g;
     st_alive := seq 0 (length (nodes g)) |}.

Definition phase1_fuel (g : Graph) : nat := 2 * length (nodes g).

(** [Graph::minimal_coloring]; [None] is a panic (or exhausted fuel). *)
Definition minimal_coloring (g : Graph) : option Coloring.t :=
  if check_invariants g then
    match phase1 (phase1_fuel g) (init_state g) with
    | None => None
    | Some st =>
        match phase2 (st_graph st) (st_k st) (st_stack st)
                (repeat usize_max (length (st_graph st))) with
        | None => None
        | Some colors => Some (Coloring.Build (st_k st) colors)
        end
    end
  else None.

(** ** Specification-side notions *)

(** Every adjacency set has fewer than [usize::MAX] elements (its
    [element_count] is a [usize], and such a set cannot be allocated). *)
Definition degrees_fit (g : Graph) : bool :=
  forallb (fun s => (bs_count s <? usize_max)%N) (nodes g).

Definition no_self_loops (g : Graph) : bool :=
  forallb (fun a => negb (bs_get (nodes g !!! a) a)) (seq 0 (length (nodes g))).

(** The maximum node degree. *)
Definition max_degree (g : Graph) : N :=
  fold_right N.max 0%N (map bs_count (nodes g)).

(** A valid coloring of [g]. *)
Definition valid_coloring (g : Graph) (c : Coloring.t) : Prop :=
  length (Coloring.nodes c) = length (nodes g) /\
  (forall a b, a < length (nodes g) -> In b (nodes g !!! a) ->
     Coloring.nodes c !!! a <> Coloring.nodes c !!! b) /\
  (forall a, a < length (nodes g) -> (Coloring.nodes c !!! a < Coloring.k c)%N).

(** Phase 2 as the spec describes it: the smallest color of [0..k] not
    assigned to a neighbour in the original adjacency [orig]; the sentinel
    of an unpopped neighbour excludes nothing. *)
Fixpoint phase2_ref (orig : list bitset) (k : N) (stack : list NodeId) (colors : list N)
  : option (list N) :=
  match stack with
  | [] => Some colors
  | node :: rest =>
      let free := List.filter
                    (fun c => negb (existsb (fun other => (colors !!! other =? c)%N)
                                      (orig !!! node)))
                    (range_set k) in
      match free with
      | [] => None
      | c :: _ => phase2_ref orig k rest (<[node := c]> colors)
      end
  end.

(** The graph of the test [simple]. *)
Definition build (n : nat) (es : list (nat * nat)) : option Graph :=
  fold_left (fun og e => match og with None => None | Some g => add_edge g (fst e) (snd e) end)
    es (Some (mkGraph (repeat [] n))).

Definition edgeless (n : nat) : Graph := mkGraph (repeat [] n).

(** Small sample graphs: one edge, a path on three nodes, a triangle. *)
Definition pair_graph : Graph := mkGraph [[1]; [0]].
Definition path3 : Graph := mkGraph [[1]; [0; 2]; [1]].
Definition triangle : Graph := mkGraph [[1; 2]; [0; 2]; [0; 1]].
(** An edge stored on one side only, and a self-loop (both unreachable
    through the API). *)
Definition one_way_graph : Graph := mkGraph [[1]; []].
Definition loop_graph : Graph := mkGraph [[0]].

Example simple_test :
  match build 4 [(0,2); (0,3); (1,2); (1,3); (2,3)] with
  | Some g => option_map Coloring.k (minimal_coloring g)
  | None => None
  end = Some 3%N.
Proof. vm_compute. reflexivity. Qed.
(** * Sets *)

Lemma bs_add_In (s : bitset) x y : In y (bs_add s x) <-> y = x \/ In y s.
Proof.
  induction s as [|z r IH]; simpl; [intuition congruence|].
  destruct (x <? z) eqn:E1; simpl; [intuition congruence|].
  destruct (x =? z) eqn:E2; simpl.
  - apply Nat.eqb_eq in E2; subst; intuition congruence.
  - rewrite IH; intuition congruence.
Qed.

Lemma bs_add_idem (s : bitset) x : bs_add (bs_add s x) x = bs_add s x.
Proof.
  induction s as [|z r IH]; simpl.
  - rewrite Nat.ltb_irrefl, Nat.eqb_refl; reflexivity.
  - destruct (x <? z) eqn:E1; simpl.
    + rewrite Nat.ltb_irrefl, Nat.eqb_refl; reflexivity.
    + destruct (x =? z) eqn:E2; simpl; rewrite ?E1, ?E2; [reflexivity|].
      rewrite IH; reflexivity.
Qed.

Lemma bs_remove_In (s : bitset) x y : In y (bs_remove s x) <-> In y s /\ y <> x.
Proof.
  unfold bs_remove; rewrite filter_In, negb_true_iff, Nat.eqb_neq; tauto.
Qed.

Lemma bs_remove_idem (s : bitset) x : bs_remove (bs_remove s x) x = bs_remove s x.
Proof.
  unfold bs_remove; induction s as [|z r IH]; simpl; [reflexivity|].
  destruct (z =? x) eqn:E; simpl; rewrite ?E; simpl; congruence.
Qed.

Lemma bs_get_In (s : bitset) x : bs_get s x = true <-> In x s.
Proof.
  unfold bs_get; rewrite existsb_exists; split.
  - intros [y [Hy E]]; apply Nat.eqb_eq in E; subst; exact Hy.
  - intros H; exists x; rewrite Nat.eqb_refl; auto.
Qed.

(** * The graph operations *)

Ltac simpl_insert :=
  repeat first
    [ rewrite list_lookup_total_insert_eq by (rewrite ?length_insert; lia)
    | rewrite list_lookup_total_insert_ne by lia ].

Lemma lookup_total_lt_Some {A} `{!Inhabited A} (l : list A) i :
  i < length l -> l !! i = Some (l !!! i).
Proof. apply list_lookup_lookup_total_lt. Qed.

Lemma add_edge_spec (g : Graph) a b :
  a <> b -> a < length (nodes g) -> b < length (nodes g) ->
  add_edge g a b =
    Some (mkGraph (<[b := bs_add (nodes g !!! b) a]> (<[a := bs_add (nodes g !!! a) b]> (nodes g)))).
Proof.
  intros Hab Ha Hb; unfold add_edge.
  rewrite (proj2 (Nat.eqb_neq a b) Hab), (lookup_total_lt_Some _ _ Ha).
  rewrite list_lookup_insert_ne by exact Hab.
  rewrite (lookup_total_lt_Some _ _ Hb); reflexivity.
Qed.

Lemma remove_edge_spec (g : Graph) a b :
  a < length (nodes g) -> b < length (nodes g) ->
  remove_edge g a b =
    Some (mkGraph (<[b := bs_remove (<[a := bs_remove (nodes g !!! a) b]> (nodes g) !!! b) a]>
                     (<[a := bs_remove (nodes g !!! a) b]> (nodes g)))).
Proof.
  intros Ha Hb; unfold remove_edge.
  rewrite (lookup_total_lt_Some _ _ Ha).
  rewrite lookup_total_lt_Some by (rewrite length_insert; exact Hb).
  reflexivity.
Qed.

(** Membership after [add_edge]. *)
Lemma add_edge_In (g g' : Graph) a b c x :
  a < length (nodes g) -> b < length (nodes g) -> add_edge g a b = Some g' ->
  length (nodes g') = length (nodes g) /\
  (In x (nodes g' !!! c) <->
   In x (nodes g !!! c) \/ (a <> b /\ ((c = a /\ x = b) \/ (c = b /\ x = a)))).
Proof.
  intros Ha Hb H.
  destruct (Nat.eq_dec a b) as [<-|Hab].
  - unfold add_edge in H; rewrite Nat.eqb_refl in H; injection H as <-.
    split; [reflexivity|]; tauto.
  - rewrite add_edge_spec in H by assumption; injection H as <-; cbn [nodes].
    split; [rewrite !length_insert; reflexivity|].
    destruct (Nat.eq_dec c b), (Nat.eq_dec c a); subst;
      simpl_insert;
      rewrite ?bs_add_In; intuition (try congruence; try lia).
Qed.

(** Membership after [remove_edge]. *)
Lemma remove_edge_In (g g' : Graph) a b c x :
  a < length (nodes g) -> b < length (nodes g) -> remove_edge g a b = Some g' ->
  length (nodes g') = length (nodes g) /\
  (In x (nodes g' !!! c) <->
   In x (nodes g !!! c) /\ ~ (c = a /\ x = b) /\ ~ (c = b /\ x = a)).
Proof.
  intros Ha Hb H.
  rewrite remove_edge_spec in H by assumption; injection H as <-; cbn [nodes].
  split; [rewrite !length_insert; reflexivity|].
  destruct (Nat.eq_dec c b), (Nat.eq_dec c a); subst;
      simpl_insert;
    rewrite ?bs_remove_In; intuition (try congruence; try lia).
Qed.

(** * Graph invariants *)

Definition symmetric (g : Graph) : Prop :=
  forall a b, In a (nodes g !!! b) <-> In b (nodes g !!! a).

Definition in_bounds (g : Graph) : Prop :=
  forall a b, In b (nodes g !!! a) -> b < length (nodes g).

Definition irreflexive (g : Graph) : Prop :=
  forall a, ~ In a (nodes g !!! a).

Lemma lookup_total_oob {A} `{!Inhabited A} (l : list A) i :
  length l <= i -> l !!! i = inhabitant.
Proof. intros H; rewrite list_lookup_total_alt, lookup_ge_None_2 by exact H; reflexivity. Qed.

Lemma list_eq_total {A} `{!Inhabited A} (l1 l2 : list A) :
  length l1 = length l2 -> (forall i, i < length l1 -> l1 !!! i = l2 !!! i) -> l1 = l2.
Proof.
  intros Hl H; apply list_eq; intros i.
  destruct (Nat.lt_ge_cases i (length l1)) as [Hi|Hi].
  - rewrite !lookup_total_lt_Some by lia; f_equal; auto.
  - rewrite !lookup_ge_None_2 by lia; reflexivity.
Qed.

Lemma check_invariants_spec (g : Graph) :
  check_invariants g = true <-> symmetric g /\ in_bounds g.
Proof.
  unfold check_invariants, symmetric, in_bounds.
  rewrite forallb_forall; split.
  - intros H.
    assert (Hab : forall a b, In b (nodes g !!! a) ->
                  b < length (nodes g) /\ In a (nodes g !!! b)).
    { intros a b Hb.
      destruct (Nat.lt_ge_cases a (length (nodes g))) as [Ha|Ha].
      - specialize (H a (proj2 (in_seq _ _ _) (conj (Nat.le_0_l _) Ha))).
        rewrite forallb_forall in H; specialize (H b Hb).
        apply andb_true_iff in H as [H1 H2].
        rewrite Nat.ltb_lt in H1; rewrite bs_get_In in H2; auto.
      - rewrite lookup_total_oob in Hb by exact Ha; destruct Hb. }
    split; [intros a b; split; intros Hin; apply Hab; exact Hin|].
    intros a b Hb; apply (Hab a b Hb).
  - intros [Hs Hb] a _; rewrite forallb_forall; intros b Hin.
    apply andb_true_iff; rewrite Nat.ltb_lt, bs_get_In; split.
    + exact (Hb a b Hin).
    + apply Hs; exact Hin.
Qed.

Lemma add_node_lookup (g : Graph) i :
  nodes (fst (add_node g)) !!! i = nodes g !!! i.
Proof.
  cbn [add_node fst nodes].
  destruct (Nat.lt_ge_cases i (length (nodes g))) as [Hi|Hi].
  - apply lookup_total_app_l; exact Hi.
  - rewrite lookup_total_app_r, (lookup_total_oob (nodes g)) by exact Hi.
    destruct (i - length (nodes g)); reflexivity.
Qed.

Lemma reachable_invariants (g : Graph) :
  reachable g -> symmetric g /\ in_bounds g /\ irreflexive g.
Proof.
  unfold symmetric, in_bounds, irreflexive.
  induction 1 as [| g _ IH | g a b g' _ IH Ha Hb H | g a b g' _ IH Ha Hb H].
  - cbn; repeat split; intros; rewrite lookup_total_nil in *; simpl in *; tauto.
  - destruct IH as (Hs & Hbd & Hir).
    repeat split; intros *; rewrite ?add_node_lookup; [apply Hs | apply Hs | | apply Hir].
    intros Hin; cbn [add_node fst nodes]; rewrite length_app; simpl.
    specialize (Hbd _ _ Hin); lia.
  - destruct IH as (Hs & Hbd & Hir).
    pose proof (fun c x => add_edge_In g g' a b c x Ha Hb H) as He.
    destruct (He 0 0) as [Hlen _].
    repeat split; intros.
    + apply He; apply He in H0; specialize (Hs a0 b0); intuition congruence.
    + apply He; apply He in H0; specialize (Hs a0 b0); intuition congruence.
    + rewrite Hlen; apply He in H0 as [H0|[_ [[-> ->]|[-> ->]]]]; eauto.
    + intros Hc; apply He in Hc as [Hc|[Hab [[-> ->]|[-> ->]]]];
        [exact (Hir _ Hc) | congruence | congruence].
  - destruct IH as (Hs & Hbd & Hir).
    pose proof (fun c x => remove_edge_In g g' a b c x Ha Hb H) as He.
    destruct (He 0 0) as [Hlen _].
    repeat split; intros.
    + apply He; apply He in H0; specialize (Hs a0 b0); intuition congruence.
    + apply He; apply He in H0; specialize (Hs a0 b0); intuition congruence.
    + rewrite Hlen; apply He in H0 as [H0 _]; eauto.
    + intros Hc; apply He in Hc as [Hc _]; exact (Hir _ Hc).
Qed.

Lemma add_edge_twice (g : Graph) a b :
  a < length (nodes g) -> b < length (nodes g) ->
  exists g1, add_edge g a b = Some g1 /\ add_edge g1 a b = Some g1.
Proof.
  intros Ha Hb; destruct (Nat.eq_dec a b) as [<-|Hab].
  - exists g; unfold add_edge; rewrite Nat.eqb_refl; auto.
  - rewrite add_edge_spec by assumption.
    eexists; split; [reflexivity|].
    rewrite add_edge_spec by (cbn [nodes]; rewrite ?length_insert; assumption).
    cbn [nodes]; do 2 f_equal; apply list_eq_total; [rewrite !length_insert; reflexivity|].
    intros i Hi; rewrite !length_insert in Hi.
    destruct (Nat.eq_dec i b), (Nat.eq_dec i a); subst; simpl_insert;
      rewrite ?bs_add_idem; congruence.
Qed.

Lemma remove_edge_twice (g : Graph) a b :
  a < length (nodes g) -> b < length (nodes g) ->
  exists g1, remove_edge g a b = Some g1 /\ remove_edge g1 a b = Some g1.
Proof.
  intros Ha Hb; rewrite remove_edge_spec by assumption.
  eexists; split; [reflexivity|].
  rewrite remove_edge_spec by (cbn [nodes]; rewrite ?length_insert; assumption).
  cbn [nodes]; do 2 f_equal; apply list_eq_total; [rewrite !length_insert; reflexivity|].
  intros i Hi; rewrite !length_insert in Hi.
  destruct (Nat.eq_dec a b) as [<-|Hab].
  - destruct (Nat.eq_dec i a); subst; simpl_insert; rewrite ?bs_remove_idem; congruence.
  - destruct (Nat.eq_dec i b), (Nat.eq_dec i a); subst; simpl_insert;
      rewrite ?bs_remove_idem; congruence.
Qed.

(** * Phase 1: the scan *)

Section Scan.
Variable gr : list bitset.
Variable k : N.

Local Abbreviation cnt x := (bs_count (gr !!! x)).

Lemma scan_eliminate (l : list NodeId) m e :
    scan gr k l m = Eliminate e -> In e l /\ (cnt e < k)%N.
  Proof.
    revert m; induction l as [|x l IH]; intros m; simpl; [discriminate|].
    destruct (cnt x <? k)%N eqn:E.
    - intros [= <-]; apply N.ltb_lt in E; auto.
    - intros H; apply IH in H as [H1 H2]; auto.
  Qed.

Lemma scan_raise (l : list NodeId) m m' :
    scan gr k l m = Raise m' ->
    (forall x, In x l -> (k <= cnt x)%N) /\ (m' <= m)%N /\
    (forall x, In x l -> (m' <= cnt x + 1)%N) /\
    (m' = m \/ exists x, In x l /\ m' = (cnt x + 1)%N).
  Proof.
    revert m; induction l as [|x l IH]; intros m; simpl.
    - intros [= <-]; repeat split; intros; try contradiction; try lia; auto.
    - destruct (cnt x <? k)%N eqn:E; [discriminate|]; apply N.ltb_ge in E.
      intros H; apply IH in H as (H1 & H2 & H3 & H4).
      destruct (cnt x + 1 <? m)%N eqn:E2; [apply N.ltb_lt in E2 | apply N.ltb_ge in E2].
      all: repeat split.
      all: try (intros y [<-|Hy]; [lia | auto]).
      all: try lia.
      + right; destruct H4 as [->|(y & Hy & ->)]; eauto.
      + destruct H4 as [->|(y & Hy & ->)]; [left; reflexivity | right; eauto].
  Qed.

Lemma scan_finds (l : list NodeId) m x :
    In x l -> (cnt x < k)%N -> exists e, scan gr k l m = Eliminate e.
  Proof.
    revert m; induction l as [|y l IH]; intros m; simpl; [contradiction|].
    intros [<-|Hx] Hlt.
    - apply N.ltb_lt in Hlt; rewrite Hlt; eauto.
    - destruct (cnt y <? k)%N; eauto.
  Qed.
End Scan.

(** A [Raise] leaves a node whose count is below the new [k]: the scan
    that follows eliminates it. *)
Lemma scan_raise_progress (gr : list bitset) k (l : list NodeId) m :
  l <> [] -> (forall x, In x l -> (bs_count (gr !!! x) < usize_max)%N) ->
  scan gr k l usize_max = Raise m ->
  (k < m)%N /\ (m <= usize_max)%N /\
  (exists y, In y l /\ m = (bs_count (gr !!! y) + 1)%N) /\
  exists e, scan gr m l usize_max = Eliminate e.
Proof.
  intros Hne Hfit H; apply scan_raise in H as (H1 & H2 & H3 & H4).
  destruct l as [|x l]; [congruence|].
  assert (Hy : exists y, In y (x :: l) /\ m = (bs_count (gr !!! y) + 1)%N).
  { destruct H4 as [->|Hy]; [|exact Hy].
    exists x; split; [left; reflexivity|].
    specialize (H3 x (or_introl eq_refl)); specialize (Hfit x (or_introl eq_refl)); lia. }
  destruct Hy as (y & Hy & Hm).
  split; [specialize (H1 y Hy); lia|]; split; [exact H2|]; split; [eauto|].
  apply (scan_finds gr m (x :: l) usize_max y Hy); lia.
Qed.

(** * Phase 1: one elimination *)

Lemma fold_alter_lookup (f : bitset -> bitset) (l : list NodeId) (gr : list bitset) :
  f [] = [] -> List.NoDup l ->
  length (fold_left (fun gr o => alter f o gr) l gr) = length gr /\
  forall v, fold_left (fun gr o => alter f o gr) l gr !!! v =
            if in_dec Nat.eq_dec v l then f (gr !!! v) else gr !!! v.
Proof.
  intros Hf; revert gr; induction l as [|o l IH]; intros gr Hnd; simpl.
  - split; [reflexivity|]; intros v; reflexivity.
  - apply NoDup_cons_iff in Hnd as [Ho Hnd].
    destruct (IH (alter f o gr) Hnd) as [IH1 IH2].
    split; [rewrite IH1, length_alter; reflexivity|].
    intros v; rewrite IH2.
    destruct (Nat.eq_dec o v) as [<-|Hov].
    + destruct (in_dec Nat.eq_dec o l) as [Hin|_]; [contradiction|].
      destruct (in_dec Nat.eq_dec o (o :: l)) as [_|Hn]; [|exfalso; apply Hn; left; reflexivity].
      destruct (Nat.lt_ge_cases o (length gr)) as [Hlt|Hge].
      * apply list_lookup_total_alter_eq; exact Hlt.
      * rewrite list_lookup_total_alt, list_lookup_alter, (lookup_ge_None_2 gr o Hge).
        rewrite (lookup_total_oob gr o Hge); case_decide; simpl; rewrite ?Hf; reflexivity.
    + rewrite list_lookup_total_alter_ne by exact Hov.
      destruct (in_dec Nat.eq_dec v l), (in_dec Nat.eq_dec v (o :: l));
        simpl in *; intuition congruence.
Qed.

Lemma bs_remove_length (s : bitset) x :
  List.NoDup s -> In x s -> length (bs_remove s x) = length s - 1.
Proof.
  unfold bs_remove; induction s as [|y s IH]; simpl; [contradiction|].
  intros Hnd Hx; apply NoDup_cons_iff in Hnd as [Hy Hnd].
  destruct (Nat.eqb_spec y x) as [<-|Hne]; simpl.
  - rewrite (filter_ext_in _ (fun _ => true)), filter_true; [lia|].
    intros z Hz; destruct (Nat.eqb_spec z y); [subst; contradiction | reflexivity].
  - destruct Hx as [->|Hx]; [congruence|].
    rewrite IH by assumption. destruct s; [contradiction|simpl; lia].
Qed.

Lemma bs_remove_NoDup (s : bitset) x : List.NoDup s -> List.NoDup (bs_remove s x).
Proof. apply List.NoDup_filter. Qed.

Lemma bs_remove_length_le (s : bitset) x : length (bs_remove s x) <= length s.
Proof. apply filter_length_le. Qed.

Lemma eliminate_graph (st : P1) node v :
  List.NoDup (st_alive st) ->
  length (st_graph (eliminate st node)) = length (st_graph st) /\
  st_graph (eliminate st node) !!! v =
    if in_dec Nat.eq_dec v (bs_remove (st_alive st) node)
    then bs_remove (st_graph st !!! v) node else st_graph st !!! v.
Proof.
  intros Hnd; unfold eliminate; cbn [st_graph].
  destruct (fold_alter_lookup (fun s => bs_remove s node) (bs_remove (st_alive st) node)
              (st_graph st) eq_refl (bs_remove_NoDup _ _ Hnd)) as [H1 H2].
  split; [exact H1 | apply H2].
Qed.

Lemma phase1_step (f : nat) (st : P1) :
  st_alive st <> [] -> phase1 (S f) st = phase1 f (outer_body st).
Proof. intros H; simpl; destruct (st_alive st); [congruence | reflexivity]. Qed.

(** The degrees of the alive nodes fit below [usize::MAX]. *)
Definition alive_fit (st : P1) : Prop :=
  forall x, In x (st_alive st) -> (bs_count (st_graph st !!! x) < usize_max)%N.

(** Each iteration of the outer loop eliminates one alive node, or raises
    [k] so that the next iteration eliminates one. *)
Lemma outer_body_cases (st : P1) :
  st_alive st <> [] -> alive_fit st ->
  (exists node, In node (st_alive st) /\
     (bs_count (st_graph st !!! node) < st_k st)%N /\
     outer_body st = eliminate st node) \/
  (st_alive (outer_body st) = st_alive st /\ st_graph (outer_body st) = st_graph st /\
   st_stack (outer_body st) = st_stack st /\
   (st_k st < st_k (outer_body st))%N /\ (st_k (outer_body st) <= usize_max)%N /\
   (exists y, In y (st_alive st) /\ st_k (outer_body st) = (bs_count (st_graph st !!! y) + 1)%N) /\
   (forall x, In x (st_alive st) -> (st_k st <= bs_count (st_graph st !!! x))%N) /\
   exists node, In node (st_alive st) /\
     (bs_count (st_graph st !!! node) < st_k (outer_body st))%N /\
     outer_body (outer_body st) = eliminate (outer_body st) node).
Proof.
  intros Hne Hfit.
  destruct (scan (st_graph st) (st_k st) (st_alive st) usize_max) as [e|m] eqn:Hs.
  - left; unfold outer_body; rewrite Hs.
    apply scan_eliminate in Hs as [H1 H2]; eauto.
  - right.
    assert (Hob : outer_body st = mkP1 m (st_stack st) (st_graph st) (st_alive st))
      by (unfold outer_body; rewrite Hs; reflexivity).
    rewrite Hob; cbn [st_alive st_graph st_stack st_k].
    pose proof (scan_raise _ _ _ _ _ Hs) as (Hge & _).
    destruct (scan_raise_progress _ _ _ _ Hne Hfit Hs) as (Hlt & Hle & Hy & e & He).
    do 3 (split; [reflexivity|]).
    split; [exact Hlt|]; split; [exact Hle|]; split; [exact Hy|]; split; [exact Hge|].
    exists e; pose proof (scan_eliminate _ _ _ _ _ He) as [He1 He2].
    split; [exact He1|]; split; [exact He2|].
    unfold outer_body at 1; cbn [st_alive st_graph st_k]; rewrite He; reflexivity.
Qed.

Lemma eliminate_alive (st : P1) node :
  List.NoDup (st_alive st) -> In node (st_alive st) ->
  st_alive (eliminate st node) = bs_remove (st_alive st) node /\
  length (st_alive (eliminate st node)) = length (st_alive st) - 1 /\
  List.NoDup (st_alive (eliminate st node)) /\
  (alive_fit st -> alive_fit (eliminate st node)).
Proof.
  intros Hnd Hin; split; [reflexivity|].
  split; [apply bs_remove_length; assumption|].
  split; [apply bs_remove_NoDup; assumption|].
  intros Hfit x Hx; destruct (eliminate_graph st node x Hnd) as [_ ->].
  destruct (in_dec Nat.eq_dec x (bs_remove (st_alive st) node)) as [Hx'|Hx']; [|contradiction].
  apply bs_remove_In in Hx' as [Hx' _]; specialize (Hfit x Hx').
  unfold bs_count in *; pose proof (bs_remove_length_le (st_graph st !!! x) node); lia.
Qed.

Lemma phase1_terminates (n : nat) (st : P1) (fuel : nat) :
  length (st_alive st) = n -> 2 * n <= fuel ->
  List.NoDup (st_alive st) -> alive_fit st ->
  exists st', phase1 fuel st = Some st' /\ st_alive st' = [].
Proof.
  revert st fuel; induction n as [|n IH]; intros st fuel Hlen Hf Hnd Hfit.
  - destruct (st_alive st) eqn:Ea; [|discriminate].
    exists st; destruct fuel; simpl; rewrite Ea; auto.
  - assert (Hne : st_alive st <> []) by (intros E; rewrite E in Hlen; discriminate).
    destruct fuel as [|fuel]; [lia|]; rewrite phase1_step by exact Hne.
    destruct (outer_body_cases st Hne Hfit) as
        [(node & Hin & _ & ->)
        |(Ea & Eg & _ & _ & _ & _ & _ & node & Hin & _ & He)].
    + destruct (eliminate_alive st node Hnd Hin) as (_ & Hl & Hnd' & Hfit').
      apply IH; auto; lia.
    + destruct fuel as [|fuel]; [lia|].
      rewrite phase1_step by congruence; rewrite He.
      assert (Hnd1 : List.NoDup (st_alive (outer_body st))) by (rewrite Ea; exact Hnd).
      assert (Hin1 : In node (st_alive (outer_body st))) by (rewrite Ea; exact Hin).
      assert (Hfit1 : alive_fit (outer_body st)) by (unfold alive_fit; rewrite Ea, Eg; exact Hfit).
      destruct (eliminate_alive _ node Hnd1 Hin1) as (_ & Hl & Hnd' & Hfit').
      apply IH; auto; try rewrite Hl; try rewrite Ea; lia.
Qed.

(** * Phase 1: the invariant of the elimination loop *)

Lemma filter_filter_and {A} (f g : A -> bool) (l : list A) :
  List.filter f (List.filter g l) = List.filter (fun x => g x && f x) l.
Proof.
  induction l as [|x l IH]; simpl; [reflexivity|].
  destruct (g x); simpl; [destruct (f x); simpl; rewrite IH; reflexivity | exact IH].
Qed.

Lemma filter_mem_ext (l1 l2 : list nat) (s : list nat) :
  (forall x, In x l1 <-> In x l2) ->
  List.filter (bs_get l1) s = List.filter (bs_get l2) s.
Proof.
  intros H; apply filter_ext; intros x.
  apply Bool.eq_iff_eq_true; rewrite !bs_get_In; apply H.
Qed.

Lemma lookup_In {A} (l : list A) i x : l !! i = Some x -> In x l.
Proof. intros H; apply list_elem_of_In, list_elem_of_lookup_2 with i; exact H. Qed.

Lemma count_le_max_degree (G : list bitset) y :
  (bs_count (G !!! y) <= fold_right N.max 0 (map bs_count G))%N.
Proof.
  revert y; induction G as [|s G IH]; intros y.
  - rewrite lookup_total_nil; unfold bs_count; cbn; lia.
  - destruct y as [|y]; simpl; [lia|].
    specialize (IH y); simpl in IH; lia.
Qed.

Lemma degrees_fit_lookup (g : Graph) v :
  degrees_fit g = true -> (bs_count (nodes g !!! v) < usize_max)%N.
Proof.
  unfold degrees_fit; destruct g as [G]; cbn [nodes]; revert v.
  induction G as [|s G IH]; intros v H.
  - rewrite lookup_total_nil; unfold bs_count, usize_max; cbn; lia.
  - simpl in H; apply andb_true_iff in H as [H1 H2].
    destruct v as [|v]; simpl; [apply N.ltb_lt; exact H1 | apply IH; exact H2].
Qed.

Record inv (G : list bitset) (st : P1) : Prop := {
  inv_len : length (st_graph st) = length G;
  inv_nd_stack : List.NoDup (st_stack st);
  inv_nd_alive : List.NoDup (st_alive st);
  inv_disj : forall x, In x (st_stack st) -> ~ In x (st_alive st);
  inv_cover : forall x, In x (st_stack st) \/ In x (st_alive st) <-> x < length G;
  inv_alive : forall v, In v (st_alive st) ->
    st_graph st !!! v = List.filter (bs_get (st_alive st)) (G !!! v);
  inv_stack : forall i v, st_stack st !! i = Some v ->
    st_graph st !!! v = List.filter (bs_get (take (S i) (st_stack st) ++ st_alive st)) (G !!! v) /\
    (bs_count (st_graph st !!! v) < st_k st)%N;
  inv_kmax : (st_k st <= usize_max)%N;
  inv_kdeg : (st_k st <= fold_right N.max 0 (map bs_count G) + 1)%N
}.

Section Phase1.
Variable G : list bitset.
Hypothesis Hfit : forall v, (bs_count (G !!! v) < usize_max)%N.

Lemma inv_fit (st : P1) : inv G st -> alive_fit st.
  Proof.
    intros Hi x Hx; rewrite (inv_alive _ _ Hi x Hx); specialize (Hfit x).
    unfold bs_count in *; pose proof (filter_length_le (bs_get (st_alive st)) (G !!! x)); lia.
  Qed.

Lemma inv_eliminate (st : P1) node :
    inv G st -> In node (st_alive st) -> (bs_count (st_graph st !!! node) < st_k st)%N ->
    inv G (eliminate st node).
  Proof.
    intros Hi Hin Hlt.
    pose proof (inv_nd_alive _ _ Hi) as Hnd.
    pose proof (fun v => eliminate_graph st node v Hnd) as Hg.
    pose proof (inv_disj _ _ Hi) as Hdisj.
    assert (Hmem : forall x, In x (node :: bs_remove (st_alive st) node) <-> In x (st_alive st)).
    { intros x; simpl; rewrite bs_remove_In.
      destruct (Nat.eq_dec x node); subst; intuition congruence. }
    assert (Es : st_stack (eliminate st node) = node :: st_stack st) by reflexivity.
    assert (Ea : st_alive (eliminate st node) = bs_remove (st_alive st) node) by reflexivity.
    assert (Ek : st_k (eliminate st node) = st_k st) by reflexivity.
    constructor; rewrite ?Es, ?Ea, ?Ek.
    - rewrite (proj1 (Hg 0)); apply (inv_len _ _ Hi).
    - constructor; [intros H; exact (Hdisj node H Hin) | apply (inv_nd_stack _ _ Hi)].
    - apply bs_remove_NoDup; exact Hnd.
    - intros x [<-|Hx] Hx'; apply bs_remove_In in Hx' as [Hx' Hne]; [congruence|].
      exact (Hdisj x Hx Hx').
    - intros x; rewrite <- (inv_cover _ _ Hi x), <- Hmem; simpl; tauto.
    - intros v Hv; rewrite (proj2 (Hg v)).
      destruct (in_dec Nat.eq_dec v (bs_remove (st_alive st) node)) as [_|]; [|contradiction].
      apply bs_remove_In in Hv as [Hv _].
      rewrite (inv_alive _ _ Hi v Hv); unfold bs_remove at 1; rewrite filter_filter_and.
      apply filter_ext; intros x; apply Bool.eq_iff_eq_true.
      rewrite andb_true_iff, negb_true_iff, Nat.eqb_neq, !bs_get_In, bs_remove_In; tauto.
    - intros [|i] v Hv; cbn in Hv.
      + injection Hv as <-; rewrite (proj2 (Hg node)).
        destruct (in_dec Nat.eq_dec node (bs_remove (st_alive st) node)) as [Hc|_].
        { apply bs_remove_In in Hc as [_ Hc]; congruence. }
        split; [|exact Hlt].
        rewrite (inv_alive _ _ Hi node Hin); apply filter_mem_ext.
        intros x; cbn [take app]; rewrite Hmem; tauto.
      + pose proof (lookup_In _ _ _ Hv) as Hvs.
        rewrite (proj2 (Hg v)).
        destruct (in_dec Nat.eq_dec v (bs_remove (st_alive st) node)) as [Hc|_].
        { apply bs_remove_In in Hc as [Hc _]; destruct (Hdisj v Hvs Hc). }
        destruct (inv_stack _ _ Hi i v Hv) as [-> Hc]; split; [|exact Hc].
        apply filter_mem_ext; intros x.
        cbn [take]; simpl app; rewrite !in_app_iff, <- Hmem; simpl; rewrite ?in_app_iff; tauto.
    - apply (inv_kmax _ _ Hi).
    - apply (inv_kdeg _ _ Hi).
  Qed.
End Phase1.

Section Phase1Run.
Variable G : list bitset.
Hypothesis Hfit : forall v, (bs_count (G !!! v) < usize_max)%N.

Lemma inv_outer (st : P1) :
    inv G st -> st_alive st <> [] ->
    inv G (outer_body st) /\ (st_k st <= st_k (outer_body st))%N.
  Proof.
    intros Hi Hne.
    destruct (outer_body_cases st Hne (inv_fit G Hfit st Hi)) as
        [(node & Hin & Hlt & ->)
        |(Ea & Eg & Es & Hlt & Hle & (y & Hy & Hk) & _ & _)].
    - split; [apply inv_eliminate; assumption | reflexivity].
    - split; [|lia].
      destruct Hi as [H1 H2 H3 H4 H5 H6 H7 H8 H9].
      constructor; rewrite ?Ea, ?Eg, ?Es; try assumption.
      + intros i v Hv; destruct (H7 i v Hv) as [Hv1 Hv2]; split; [exact Hv1 | lia].
      + rewrite Hk, (H6 y Hy).
        pose proof (count_le_max_degree G y).
        pose proof (filter_length_le (bs_get (st_alive st)) (G !!! y)).
        unfold bs_count in *; lia.
  Qed.

Lemma phase1_inv (fuel : nat) (st st' : P1) :
    inv G st -> phase1 fuel st = Some st' ->
    inv G st' /\ st_alive st' = [] /\ (st_k st <= st_k st')%N.
  Proof.
    revert st; induction fuel as [|fuel IH]; intros st Hi H; simpl in H;
      destruct (st_alive st) as [|x l] eqn:Ea; try discriminate.
    - injection H as <-; split; [exact Hi | split; [exact Ea | lia]].
    - injection H as <-; split; [exact Hi | split; [exact Ea | lia]].
    - assert (Hne : st_alive st <> []) by congruence.
      destruct (inv_outer st Hi Hne) as [Hi' Hk].
      destruct (IH _ Hi' H) as (Hi2 & Ha2 & Hk2).
      split; [exact Hi2 | split; [exact Ha2 | lia]].
  Qed.
End Phase1Run.

Lemma filter_all {A} (f : A -> bool) (l : list A) :
  (forall x, In x l -> f x = true) -> List.filter f l = l.
Proof.
  induction l as [|x l IH]; simpl; intros H; [reflexivity|].
  rewrite (H x (or_introl eq_refl)), IH; auto.
Qed.

Lemma inv_init (g : Graph) :
  in_bounds g -> inv (nodes g) (init_state g).
Proof.
  intros Hb; constructor; cbn [init_state st_graph st_stack st_alive st_k].
  - reflexivity.
  - constructor.
  - apply seq_NoDup.
  - intros x [].
  - intros x; rewrite in_seq; simpl; lia.
  - intros v _; symmetry; apply filter_all; intros x Hx.
    apply bs_get_In, in_seq; specialize (Hb v x Hx); lia.
  - intros i v Hv; rewrite lookup_nil in Hv; discriminate.
  - unfold usize_max; lia.
  - lia.
Qed.

(** The elimination loop of [minimal_coloring] completes, and its final
    state satisfies the invariant. *)
Lemma phase1_result (g : Graph) :
  check_invariants g = true -> degrees_fit g = true ->
  exists st, phase1 (phase1_fuel g) (init_state g) = Some st /\
             st_alive st = [] /\ inv (nodes g) st.
Proof.
  intros Hc Hd; apply check_invariants_spec in Hc as [Hs Hb].
  assert (Hfit : forall v, (bs_count (nodes g !!! v) < usize_max)%N)
    by (intros v; apply degrees_fit_lookup; exact Hd).
  pose proof (inv_init g Hb) as Hi.
  destruct (phase1_terminates (length (nodes g)) (init_state g) (phase1_fuel g))
    as (st & Hst & _).
  - cbn; apply length_seq.
  - unfold phase1_fuel; lia.
  - apply seq_NoDup.
  - apply (inv_fit (nodes g) Hfit _ Hi).
  - exists st; split; [exact Hst|].
    destruct (phase1_inv (nodes g) Hfit _ _ _ Hi Hst) as (Hi' & Ha & _); auto.
Qed.

(** * Phase 2: greedy assignment *)

Lemma fold_colors_remove (cs : list N) (l : list NodeId) (s : list N) :
  fold_left (fun al other => colors_remove al (cs !!! other)) l s =
  List.filter (fun c => negb (existsb (fun o => (cs !!! o =? c)%N) l)) s.
Proof.
  revert s; induction l as [|o l IH]; intros s; simpl.
  - symmetry; apply filter_all; reflexivity.
  - rewrite IH; unfold colors_remove; rewrite filter_filter_and.
    apply filter_ext; intros c; rewrite N.eqb_sym.
    destruct (cs !!! o =? c)%N; reflexivity.
Qed.

Lemma colors_remove_length (s : list N) c :
  List.NoDup s -> length s <= length (colors_remove s c) + 1.
Proof.
  unfold colors_remove; induction s as [|x s IH]; simpl; [lia|].
  intros Hnd; apply NoDup_cons_iff in Hnd as [Hx Hnd].
  destruct (x =? c)%N eqn:E; simpl.
  - apply N.eqb_eq in E; subst.
    rewrite filter_all; [lia|].
    intros y Hy; destruct (N.eqb_spec y c); [subst; contradiction | reflexivity].
  - specialize (IH Hnd); lia.
Qed.

Lemma fold_colors_remove_length (cs : list N) (l : list NodeId) (s : list N) :
  List.NoDup s ->
  length s <= length (fold_left (fun al other => colors_remove al (cs !!! other)) l s) + length l.
Proof.
  revert s; induction l as [|o l IH]; intros s Hnd; simpl; [lia|].
  pose proof (colors_remove_length s (cs !!! o) Hnd).
  pose proof (IH (colors_remove s (cs !!! o)) (List.NoDup_filter _ Hnd)); lia.
Qed.

Lemma range_set_In (k : N) c : In c (range_set k) <-> (c < k)%N.
Proof.
  unfold range_set; rewrite in_map_iff; split.
  - intros (x & <- & Hx); apply in_seq in Hx; lia.
  - intros H; exists (N.to_nat c); rewrite in_seq; split; lia.
Qed.

Lemma range_set_length (k : N) : length (range_set k) = N.to_nat k.
Proof. unfold range_set; rewrite length_map, length_seq; reflexivity. Qed.

Lemma range_set_NoDup (k : N) : List.NoDup (range_set k).
Proof.
  unfold range_set; generalize (seq_NoDup (N.to_nat k) 0).
  generalize (seq 0 (N.to_nat k)); induction l as [|x l IH]; simpl; intros Hnd;
    [constructor|].
  apply NoDup_cons_iff in Hnd as [Hx Hnd]; constructor; [|auto].
  rewrite in_map_iff; intros (y & Hy & Hin); apply Nat2N.inj in Hy; subst; contradiction.
Qed.

Lemma existsb_filter_drop {A} (p q : A -> bool) (l : list A) :
  (forall x, In x l -> q x = false -> p x = false) ->
  existsb p (List.filter q l) = existsb p l.
Proof.
  induction l as [|x l IH]; simpl; intros H; [reflexivity|].
  destruct (q x) eqn:Eq; simpl; rewrite IH by auto; [reflexivity|].
  rewrite (H x (or_introl eq_refl) Eq); reflexivity.
Qed.

Section Phase2.
Variable G : list bitset.
Variable gr : list bitset.
Variable k : N.
Hypothesis Hbnd : forall a b, In b (G !!! a) -> b < length G.
Hypothesis Hk : (k <= usize_max)%N.

  (** Distinct colors on the edges between nodes of [D]. *)
Definition distinct_on (D : list NodeId) (cs : list N) : Prop :=
    forall a b, In a D -> In b D -> In b (G !!! a) -> a <> b -> cs !!! a <> cs !!! b.

Lemma phase2_run (rest pre : list NodeId) (cs : list N) :
    List.NoDup (pre ++ rest) ->
    (forall v, In v rest -> v < length G) ->
    (forall j v, rest !! j = Some v ->
       gr !!! v = List.filter (bs_get (pre ++ take (S j) rest)) (G !!! v) /\
       (bs_count (gr !!! v) < k)%N) ->
    length cs = length G ->
    (forall x, x < length G -> ~ In x pre -> cs !!! x = usize_max) ->
    (forall x, In x pre -> (cs !!! x < k)%N) ->
    exists cs', phase2 gr k rest cs = Some cs' /\ phase2_ref G k rest cs = Some cs' /\
      length cs' = length G /\
      (forall x, In x (pre ++ rest) -> (cs' !!! x < k)%N) /\
      ((forall a b, In a (G !!! b) <-> In b (G !!! a)) ->
       distinct_on pre cs -> distinct_on (pre ++ rest) cs').
  Proof.
    revert pre cs; induction rest as [|v rest IH]; intros pre cs Hnd Hlt Hrest Hlen Hfree Hcol.
    - exists cs; rewrite app_nil_r; repeat split; auto.
    - destruct (Hrest 0 v eq_refl) as [Hgv Hcnt]; cbn [take] in Hgv.
      assert (Hv : v < length G) by (apply Hlt; left; reflexivity).
      assert (Hvpre : ~ In v pre).
      { intros H; apply NoDup_remove_2 in Hnd; apply Hnd, in_app_iff; left; exact H. }
      remember (fold_left (fun al other => colors_remove al (cs !!! other)) (gr !!! v) (range_set k))
        as A eqn:HAdef.
      assert (HA : A = List.filter (fun c => negb (existsb (fun o => (cs !!! o =? c)%N) (G !!! v)))
                         (range_set k)).
      { rewrite HAdef, fold_colors_remove; apply filter_ext_in; intros c Hc.
        apply range_set_In in Hc; rewrite Hgv, existsb_filter_drop; [reflexivity|].
        intros x Hx Hq; rewrite Hfree; [apply N.eqb_neq; unfold usize_max in *; lia | |].
        - apply (Hbnd v x Hx).
        - intros Hp; apply Bool.not_true_iff_false in Hq; apply Hq, bs_get_In, in_app_iff; auto. }
      assert (HAlen : 0 < length A).
      { pose proof (fold_colors_remove_length cs (gr !!! v) (range_set k) (range_set_NoDup k)).
        rewrite range_set_length in H; rewrite HAdef; unfold bs_count in Hcnt; lia. }
      destruct A as [|c tl]; [simpl in HAlen; lia|].
      assert (Hc : (c < k)%N /\ forall o, In o (gr !!! v) -> cs !!! o <> c).
      { assert (Hin : In c (c :: tl)) by (left; reflexivity).
        rewrite HAdef, fold_colors_remove in Hin.
        apply filter_In in Hin as [Hin Hn]; apply range_set_In in Hin; split; [exact Hin|].
        intros o Ho E; apply negb_true_iff in Hn; rewrite <- Bool.not_true_iff_false in Hn.
        apply Hn, existsb_exists; exists o; split; [exact Ho | apply N.eqb_eq; exact E]. }
      destruct Hc as [Hck Hcav].
      destruct (IH (pre ++ [v]) (<[v := c]> cs)) as (cs' & E1 & E2 & Hl' & Hcol' & Hdist').
      + rewrite <- app_assoc; exact Hnd.
      + intros w Hw; apply Hlt; right; exact Hw.
      + intros j w Hw; rewrite <- app_assoc; apply (Hrest (S j) w Hw).
      + rewrite length_insert; exact Hlen.
      + intros x Hx Hxn; rewrite list_lookup_total_insert_ne.
        * apply Hfree; [exact Hx | intros H; apply Hxn, in_app_iff; auto].
        * intros <-; apply Hxn, in_app_iff; right; left; reflexivity.
      + intros x Hx; apply in_app_iff in Hx as [Hx|[<-|[]]].
        * rewrite list_lookup_total_insert_ne by (intros <-; contradiction); auto.
        * rewrite list_lookup_total_insert_eq by lia; exact Hck.
      + exists cs'; cbn [phase2 phase2_ref].
        rewrite <- HAdef, <- HA.
        split; [exact E1|]; split; [exact E2|]; split; [exact Hl'|].
        split.
        * intros x Hx; apply Hcol'; rewrite <- app_assoc; exact Hx.
        * intros Hsym HD.
          replace (pre ++ v :: rest) with ((pre ++ [v]) ++ rest) by (rewrite <- app_assoc; reflexivity).
          apply Hdist'; [exact Hsym|].
          assert (Hgr : forall o, In o pre -> In o (G !!! v) -> In o (gr !!! v)).
          { intros o Ho Hov; rewrite Hgv; apply filter_In; split; [exact Hov|].
            apply bs_get_In, in_app_iff; auto. }
          intros a b Ha Hb Hab Hne.
          apply in_app_iff in Ha as [Ha|[<-|[]]]; apply in_app_iff in Hb as [Hb|[<-|[]]].
          -- rewrite !list_lookup_total_insert_ne by (intros <-; contradiction).
             apply HD; assumption.
          -- rewrite list_lookup_total_insert_eq, list_lookup_total_insert_ne
               by (try (intros <-; contradiction); lia).
             intros E; apply (Hcav a); [apply Hgr; [exact Ha | apply Hsym; exact Hab] | exact E].
          -- rewrite list_lookup_total_insert_eq, list_lookup_total_insert_ne
               by (try (intros <-; contradiction); lia).
             intros E; apply (Hcav b); [apply Hgr; assumption | symmetry; exact E].
          -- contradiction.
  Qed.
End Phase2.

Lemma repeat_lookup_total {A} `{!Inhabited A} (x : A) n i : i < n -> repeat x n !!! i = x.
Proof.
  revert i; induction n as [|n IH]; intros i Hi; [lia|].
  destruct i as [|i]; simpl; [reflexivity|]; apply IH; lia.
Qed.

(** * The whole computation *)

Lemma coloring_run (g : Graph) :
  check_invariants g = true -> degrees_fit g = true ->
  exists st cs,
    phase1 (phase1_fuel g) (init_state g) = Some st /\ st_alive st = [] /\
    inv (nodes g) st /\
    phase2 (st_graph st) (st_k st) (st_stack st) (repeat usize_max (length (st_graph st))) = Some cs /\
    phase2_ref (nodes g) (st_k st) (st_stack st) (repeat usize_max (length (st_graph st))) = Some cs /\
    minimal_coloring g = Some (Coloring.Build (st_k st) cs) /\
    length cs = length (nodes g) /\
    (forall x, x < length (nodes g) -> (cs !!! x < st_k st)%N) /\
    (symmetric g -> distinct_on (nodes g) (st_stack st) cs).
Proof.
  intros Hc Hd.
  destruct (phase1_result g Hc Hd) as (st & Hst & Ha & Hi).
  pose proof (proj2 (proj1 (check_invariants_spec g) Hc)) as Hb.
  pose proof (inv_len _ _ Hi) as Hlen.
  assert (Hcov : forall x, In x (st_stack st) <-> x < length (nodes g)).
  { intros x; rewrite <- (inv_cover _ _ Hi x), Ha; simpl; tauto. }
  destruct (phase2_run (nodes g) (st_graph st) (st_k st) Hb (inv_kmax _ _ Hi)
              (st_stack st) [] (repeat usize_max (length (st_graph st))))
    as (cs & E1 & E2 & Hl & Hcol & Hdist).
  - apply (inv_nd_stack _ _ Hi).
  - intros v Hv; apply Hcov; exact Hv.
  - intros j v Hv; destruct (inv_stack _ _ Hi j v Hv) as [H1 H2].
    rewrite Ha, app_nil_r in H1; split; assumption.
  - rewrite repeat_length; exact Hlen.
  - intros x Hx _; apply repeat_lookup_total; lia.
  - intros x [].
  - exists st, cs.
    split; [exact Hst|]; split; [exact Ha|]; split; [exact Hi|].
    split; [exact E1|]; split; [exact E2|].
    split; [unfold minimal_coloring; rewrite Hc, Hst, E1; reflexivity|].
    split; [exact Hl|].
    split; [intros x Hx; apply Hcol, Hcov; exact Hx|].
    intros Hsym; apply Hdist; [exact Hsym|].
    intros a b [].
Qed.

(** [k] stays [0] only on the empty graph: the first iteration on a
    non-empty graph raises it. *)
Lemma run_k_zero_iff (g : Graph) st :
  check_invariants g = true -> degrees_fit g = true ->
  phase1 (phase1_fuel g) (init_state g) = Some st ->
  (st_k st = 0%N <-> length (nodes g) = 0).
Proof.
  intros Hc Hd Hst.
  assert (Hfit : forall v, (bs_count (nodes g !!! v) < usize_max)%N)
    by (intros v; apply degrees_fit_lookup; exact Hd).
  pose proof (proj2 (proj1 (check_invariants_spec g) Hc)) as Hb.
  pose proof (inv_init g Hb) as Hi.
  unfold phase1_fuel in Hst.
  destruct (length (nodes g)) as [|n] eqn:En.
  - simpl in Hst; unfold init_state in Hst; rewrite En in Hst; simpl in Hst.
    injection Hst as <-; simpl; tauto.
  - assert (Hne : st_alive (init_state g) <> []) by (cbn; rewrite En; discriminate).
    replace (2 * S n) with (S (2 * n + 1)) in Hst by lia.
    rewrite phase1_step in Hst by exact Hne.
    destruct (inv_outer (nodes g) Hfit _ Hi Hne) as [Hi1 _].
    destruct (outer_body_cases _ Hne (inv_fit _ Hfit _ Hi)) as
        [(node & _ & Hlt & _)|(_ & _ & _ & Hlt & _)].
    + cbn in Hlt; lia.
    + destruct (phase1_inv (nodes g) Hfit _ _ _ Hi1 Hst) as (_ & _ & Hk).
      cbn in Hlt; split; [lia | discriminate].
Qed.

Lemma filter_length_mono {A} (p q : A -> bool) (l : list A) :
  (forall x, p x = true -> q x = true) ->
  length (List.filter p l) <= length (List.filter q l).
Proof.
  intros H; induction l as [|x l IH]; simpl; [lia|].
  destruct (p x) eqn:Ep; [rewrite (H x Ep); simpl; lia|].
  destruct (q x); simpl; lia.
Qed.

Lemma take_In_S {A} (l : list A) i x : In x (take i l) -> In x (take (S i) l).
Proof.
  revert l; induction i as [|i IH]; intros l; [intros []|].
  destruct l as [|y l]; simpl; [tauto|]; intros [->|H]; [left; reflexivity | right; apply IH; exact H].
Qed.

Lemma no_self_loops_spec (g : Graph) : no_self_loops g = true -> irreflexive g.
Proof.
  unfold no_self_loops, irreflexive; rewrite forallb_forall; intros H a Ha.
  destruct (Nat.lt_ge_cases a (length (nodes g))) as [Hlt|Hge].
  - specialize (H a (proj2 (in_seq _ _ _) (conj (Nat.le_0_l _) Hlt))).
    apply negb_true_iff in H; apply bs_get_In in Ha; congruence.
  - rewrite lookup_total_oob in Ha by exact Hge; destruct Ha.
Qed.

(** * The claims *)

(** C1: on a graph whose invariants hold (symmetric, in-bounds adjacency,
    no self-loop, as every graph built through the API has, and degrees
    that fit in a [usize]), [minimal_coloring] returns a valid coloring:
    adjacent nodes get different colors and every color is below [k]. *)
Theorem minimal_coloring_valid (g : Graph) :
  check_invariants g = true -> no_self_loops g = true -> degrees_fit g = true ->
  exists c, minimal_coloring g = Some c /\ valid_coloring g c.
Proof.
  intros Hc Hn Hd.
  destruct (coloring_run g Hc Hd) as (st & cs & _ & Ha & Hi & _ & _ & Hm & Hl & Hcol & Hdist).
  pose proof (proj1 (check_invariants_spec g) Hc) as [Hs Hb].
  pose proof (no_self_loops_spec g Hn) as Hir.
  assert (Hcov : forall x, In x (st_stack st) <-> x < length (nodes g)).
  { intros x; rewrite <- (inv_cover _ _ Hi x), Ha; simpl; tauto. }
  exists (Coloring.Build (st_k st) cs); split; [exact Hm|].
  split; [exact Hl|]; split.
  - intros a b Ha' Hab; cbn [Coloring.nodes].
    apply (Hdist Hs); [apply Hcov; exact Ha' | apply Hcov; exact (Hb a b Hab) | exact Hab |].
    intros <-; exact (Hir a Hab).
  - intros a Ha'; apply Hcol; exact Ha'.
Qed.

Lemma minimal_coloring_valid_witness :
  (exists c, minimal_coloring (mkGraph [[2; 3]; [2; 3]; [0; 1; 3]; [0; 1; 2]]) = Some c /\
     valid_coloring (mkGraph [[2; 3]; [2; 3]; [0; 1; 3]; [0; 1; 2]]) c).
Proof. apply minimal_coloring_valid; vm_compute; reflexivity. Defined.

(** C2 (as stated): on [n] nodes and no edge, [minimal_coloring] returns
    [k = 0]. It fails at one node: [k] starts at [0], no node has fewer
    than [0] neighbours, so [k] is raised to [0 + 1]. *)
Lemma edgeless_k_zero_counterexample :
  ~ (forall n, option_map Coloring.k (minimal_coloring (edgeless n)) = Some 0%N).
Proof. intros H; specialize (H 1); vm_compute in H; discriminate. Qed.

(** C2 (amended): on [n] nodes and no edge, [minimal_coloring] returns
    [k = 0] and the empty assignment when [n = 0], and [k = 1] with every
    node colored [0] when [n >= 1]. *)
Theorem edgeless_coloring (n : nat) :
  minimal_coloring (edgeless n) =
    Some (Coloring.Build (if n =? 0 then 0%N else 1%N) (repeat 0%N n)).
Proof.
  assert (Hlen : length (nodes (edgeless n)) = n) by apply repeat_length.
  assert (Hnil : forall v, nodes (edgeless n) !!! v = []).
  { intros v; destruct (Nat.lt_ge_cases v n).
    - apply repeat_lookup_total; assumption.
    - rewrite lookup_total_oob by (rewrite Hlen; assumption); reflexivity. }
  assert (Hc : check_invariants (edgeless n) = true).
  { apply check_invariants_spec; split; intros a b; rewrite !Hnil; simpl; tauto. }
  assert (Hd : degrees_fit (edgeless n) = true).
  { unfold degrees_fit; apply forallb_forall; intros s Hs.
    cbn [edgeless nodes] in Hs; apply repeat_spec in Hs as ->; reflexivity. }
  destruct (coloring_run _ Hc Hd) as (st & cs & Hst & _ & Hi & _ & _ & Hm & Hl & Hcol & _).
  rewrite Hm.
  pose proof (run_k_zero_iff _ st Hc Hd Hst) as Hz.
  pose proof (inv_kdeg _ _ Hi) as Hk.
  assert (Hmax : fold_right N.max 0%N (map bs_count (nodes (edgeless n))) = 0%N).
  { cbn [edgeless nodes]; rewrite map_repeat; clear; induction n as [|n IH]; simpl; [reflexivity|].
    rewrite IH; reflexivity. }
  rewrite Hmax in Hk; rewrite Hlen in Hz, Hl, Hcol.
  assert (Ek : st_k st = if n =? 0 then 0%N else 1%N).
  { destruct (Nat.eqb_spec n 0); [apply Hz; assumption|].
    assert (st_k st <> 0%N) by (intros E; apply Hz in E; contradiction); lia. }
  rewrite Ek; do 2 f_equal.
  apply list_eq_total; [rewrite repeat_length; exact Hl|].
  intros i Hi'; rewrite Hl in Hi'; rewrite repeat_lookup_total by exact Hi'.
  specialize (Hcol i Hi'); rewrite Ek in Hcol; destruct (n =? 0); lia.
Qed.

(** C3: on a graph whose invariants hold (and whose degrees fit in a
    [usize]), the [k] of [minimal_coloring] is at most the maximum node
    degree plus one. *)
Theorem minimal_coloring_k_bound (g : Graph) :
  check_invariants g = true -> degrees_fit g = true ->
  exists c, minimal_coloring g = Some c /\ (Coloring.k c <= max_degree g + 1)%N.
Proof.
  intros Hc Hd.
  destruct (coloring_run g Hc Hd) as (st & cs & _ & _ & Hi & _ & _ & Hm & _).
  exists (Coloring.Build (st_k st) cs); split; [exact Hm|].
  cbn [Coloring.k]; apply (inv_kdeg _ _ Hi).
Qed.

Lemma minimal_coloring_k_bound_witness :
  exists c, minimal_coloring (path3) = Some c /\
    (Coloring.k c <= max_degree (path3) + 1)%N.
Proof. apply minimal_coloring_k_bound; vm_compute; reflexivity. Defined.

(** C4: on every graph built from [new] by [add_node], [add_edge] and
    [remove_edge] with valid ids, adjacency is symmetric, every neighbour
    index is below the number of nodes, and [check_invariants] passes. *)
Theorem reachable_symmetric (g : Graph) :
  reachable g ->
  (forall a b, In a (nodes g !!! b) <-> In b (nodes g !!! a)) /\
  (forall a b, In b (nodes g !!! a) -> b < length (nodes g)) /\
  check_invariants g = true.
Proof.
  intros Hr; destruct (reachable_invariants g Hr) as (Hs & Hb & _).
  split; [exact Hs|]; split; [exact Hb|].
  apply check_invariants_spec; split; assumption.
Qed.

(** Two nodes joined by one edge, built through the API. *)
Lemma reachable_pair : reachable (pair_graph).
Proof.
  apply (reach_add_edge (fst (add_node (fst (add_node new)))) 0 1).
  - apply reach_add_node, reach_add_node, reach_new.
  - cbn; lia.
  - cbn; lia.
  - vm_compute; reflexivity.
Qed.

Lemma reachable_symmetric_witness :
  reachable (pair_graph) /\
  check_invariants (pair_graph) = true.
Proof.
  split; [exact reachable_pair|].
  apply (reachable_symmetric (pair_graph) reachable_pair).
Defined.

(** C5: on a graph whose invariants hold, phase 2 run on the working
    adjacency left by phase 1 gives exactly the colors of the reference
    greedy pass over the original adjacency (smallest color of [0..k]
    not assigned to a neighbour; unpopped neighbours carry the sentinel
    and exclude nothing), and [minimal_coloring] returns those colors. *)
Theorem phase2_matches_reference (g : Graph) :
  check_invariants g = true -> degrees_fit g = true ->
  exists st, phase1 (phase1_fuel g) (init_state g) = Some st /\ st_alive st = [] /\
    phase2 (st_graph st) (st_k st) (st_stack st) (repeat usize_max (length (nodes g))) =
    phase2_ref (nodes g) (st_k st) (st_stack st) (repeat usize_max (length (nodes g))) /\
    minimal_coloring g =
      option_map (Coloring.Build (st_k st))
        (phase2_ref (nodes g) (st_k st) (st_stack st) (repeat usize_max (length (nodes g)))).
Proof.
  intros Hc Hd.
  destruct (coloring_run g Hc Hd) as (st & cs & Hst & Ha & Hi & E1 & E2 & Hm & _).
  rewrite (inv_len _ _ Hi) in E1, E2.
  exists st; split; [exact Hst|]; split; [exact Ha|].
  rewrite E1, E2; split; [reflexivity | exact Hm].
Qed.

Lemma phase2_matches_reference_witness :
  exists st, phase1 (phase1_fuel (triangle))
               (init_state (triangle)) = Some st /\ st_alive st = [] /\
    phase2 (st_graph st) (st_k st) (st_stack st) (repeat usize_max 3) =
    phase2_ref (nodes triangle) (st_k st) (st_stack st) (repeat usize_max 3) /\
    minimal_coloring (triangle) =
      option_map (Coloring.Build (st_k st))
        (phase2_ref (nodes triangle) (st_k st) (st_stack st) (repeat usize_max 3)).
Proof. apply (phase2_matches_reference (triangle)); vm_compute; reflexivity. Defined.

(** C6: on a graph whose invariants hold, every node of the elimination
    stack has fewer than [k] original neighbours popped before it (at most
    [k - 1] colors excluded), and phase 2 never reaches the failing
    [unwrap]. *)
Theorem phase2_total (g : Graph) :
  check_invariants g = true -> degrees_fit g = true ->
  exists st, phase1 (phase1_fuel g) (init_state g) = Some st /\ st_alive st = [] /\
    (forall i v, st_stack st !! i = Some v ->
       (N.of_nat (length (List.filter (bs_get (take i (st_stack st))) (nodes g !!! v))) < st_k st)%N) /\
    phase2 (st_graph st) (st_k st) (st_stack st) (repeat usize_max (length (nodes g))) <> None.
Proof.
  intros Hc Hd.
  destruct (coloring_run g Hc Hd) as (st & cs & Hst & Ha & Hi & E1 & _).
  rewrite (inv_len _ _ Hi) in E1.
  exists st; split; [exact Hst|]; split; [exact Ha|]; split; [|rewrite E1; discriminate].
  intros i v Hv; destruct (inv_stack _ _ Hi i v Hv) as [Hg Hcnt].
  rewrite Hg, Ha, app_nil_r in Hcnt; unfold bs_count in Hcnt.
  pose proof (filter_length_mono (bs_get (take i (st_stack st))) (bs_get (take (S i) (st_stack st)))
                (nodes g !!! v)) as Hmono.
  assert (length (List.filter (bs_get (take i (st_stack st))) (nodes g !!! v)) <=
          length (List.filter (bs_get (take (S i) (st_stack st))) (nodes g !!! v))).
  { apply Hmono; intros x Hx; apply bs_get_In, take_In_S, bs_get_In; exact Hx. }
  lia.
Qed.

Lemma phase2_total_witness :
  exists st, phase1 (phase1_fuel (pair_graph)) (init_state (pair_graph)) = Some st /\
    st_alive st = [] /\
    (forall i v, st_stack st !! i = Some v ->
       (N.of_nat (length (List.filter (bs_get (take i (st_stack st))) (nodes pair_graph !!! v))) < st_k st)%N) /\
    phase2 (st_graph st) (st_k st) (st_stack st) (repeat usize_max 2) <> None.
Proof. apply (phase2_total (pair_graph)); vm_compute; reflexivity. Defined.

(** C7: termination of [minimal_coloring].  On any phase-1 state with a
    non-empty, duplicate-free alive set whose counts fit in a [usize], one
    iteration of the outer loop either eliminates exactly one alive node
    (keeping [k]), or leaves the alive set unchanged and strictly raises
    [k], after which the next iteration eliminates a node.  On a graph
    whose invariants hold, the loop (with [2 * n] iterations of fuel) ends
    with no alive node, and [minimal_coloring] returns a coloring. *)
Theorem coloring_terminates (g : Graph) :
  check_invariants g = true -> degrees_fit g = true ->
  (forall st, st_alive st <> [] -> List.NoDup (st_alive st) -> alive_fit st ->
     (exists node, outer_body st = eliminate st node /\
        length (st_alive (outer_body st)) = length (st_alive st) - 1 /\
        st_k (outer_body st) = st_k st) \/
     (st_alive (outer_body st) = st_alive st /\ (st_k st < st_k (outer_body st))%N /\
      exists node, outer_body (outer_body st) = eliminate (outer_body st) node /\
        length (st_alive (outer_body (outer_body st))) = length (st_alive st) - 1)) /\
  (exists st, phase1 (phase1_fuel g) (init_state g) = Some st /\ st_alive st = [] /\
     exists c, minimal_coloring g = Some c).
Proof.
  intros Hc Hd; split.
  - intros st Hne Hnd Hfit.
    destruct (outer_body_cases st Hne Hfit)
      as [(node & Hin & _ & He) | (Ha & _ & _ & Hlt & _ & _ & _ & node & Hin & _ & He)].
    + left; exists node; split; [exact He|].
      rewrite He; split; [apply (eliminate_alive st node Hnd Hin) | reflexivity].
    + right; split; [exact Ha|]; split; [exact Hlt|].
      exists node; split; [exact He|].
      rewrite He, <- Ha.
      rewrite <- Ha in Hnd, Hin.
      apply (eliminate_alive _ node Hnd Hin).
  - destruct (coloring_run g Hc Hd) as (st & cs & Hst & Ha & _ & _ & _ & Hm & _).
    exists st; split; [exact Hst|]; split; [exact Ha|].
    eexists; exact Hm.
Qed.

Lemma coloring_terminates_witness :
  exists st, phase1 (phase1_fuel triangle) (init_state triangle) = Some st /\ st_alive st = [] /\
     exists c, minimal_coloring triangle = Some c.
Proof. apply (coloring_terminates triangle); vm_compute; reflexivity. Defined.

(** C8: on every graph built from [new] through the API, no node is in its
    own adjacency set ([add_edge a a] stores nothing). *)
Theorem reachable_no_self_loops (g : Graph) :
  reachable g -> forall a, ~ In a (nodes g !!! a).
Proof. intros Hr; apply (reachable_invariants g Hr). Qed.

Lemma reachable_no_self_loops_witness :
  reachable pair_graph /\ add_edge pair_graph 0 0 = Some pair_graph /\
  ~ In 0 (nodes pair_graph !!! 0).
Proof.
  assert (Hr : reachable pair_graph).
  { apply (reach_add_edge pair_graph 0 0); [exact reachable_pair | cbn; lia | cbn; lia | reflexivity]. }
  split; [exact Hr|]; split; [reflexivity|].
  apply (reachable_no_self_loops pair_graph Hr).
Defined.

(** C9: for valid ids [a] and [b] of any graph, [add_edge a b] applied
    twice gives the same state as applied once, and so does
    [remove_edge a b] (also when the edge is absent to begin with). *)
Theorem edge_ops_idempotent (g : Graph) a b :
  a < length (nodes g) -> b < length (nodes g) ->
  (exists g1, add_edge g a b = Some g1 /\ add_edge g1 a b = Some g1) /\
  (exists g2, remove_edge g a b = Some g2 /\ remove_edge g2 a b = Some g2).
Proof.
  intros Ha Hb; split; [apply add_edge_twice | apply remove_edge_twice]; assumption.
Qed.

Lemma edge_ops_idempotent_witness :
  (exists g1, add_edge path3 0 2 = Some g1 /\ add_edge g1 0 2 = Some g1) /\
  (exists g2, remove_edge path3 0 2 = Some g2 /\ remove_edge g2 0 2 = Some g2).
Proof. apply edge_ops_idempotent; cbn; lia. Defined.

(** C10: on a graph whose invariants hold (degrees fitting in a [usize]),
    [minimal_coloring] returns [k = 0] exactly when the graph has no node. *)
Theorem coloring_k_zero_iff_empty (g : Graph) :
  check_invariants g = true -> degrees_fit g = true ->
  exists c, minimal_coloring g = Some c /\ (Coloring.k c = 0%N <-> length (nodes g) = 0).
Proof.
  intros Hc Hd.
  destruct (coloring_run g Hc Hd) as (st & cs & Hst & _ & _ & _ & _ & Hm & _).
  exists (Coloring.Build (st_k st) cs); split; [exact Hm|].
  apply (run_k_zero_iff g st Hc Hd Hst).
Qed.

Lemma coloring_k_zero_iff_empty_witness :
  exists c, minimal_coloring pair_graph = Some c /\
    (Coloring.k c = 0%N <-> length (nodes pair_graph) = 0).
Proof. apply coloring_k_zero_iff_empty; vm_compute; reflexivity. Defined.

(** * Further properties of the graph operations and the coloring *)

(** ** Helpers *)

Lemma add_edge_unfold (g : Graph) a b :
  a <> b ->
  add_edge g a b =
    match nodes g !! a, nodes g !! b with
    | Some sa, Some sb => Some (mkGraph (<[b := bs_add sb a]> (<[a := bs_add sa b]> (nodes g))))
    | _, _ => None
    end.
Proof.
  intros Hab; unfold add_edge; rewrite (proj2 (Nat.eqb_neq a b) Hab).
  destruct (nodes g !! a); [|reflexivity].
  rewrite list_lookup_insert_ne by exact Hab.
  destruct (nodes g !! b); reflexivity.
Qed.

Lemma remove_edge_unfold (g : Graph) a b :
  a <> b ->
  remove_edge g a b =
    match nodes g !! a, nodes g !! b with
    | Some sa, Some sb => Some (mkGraph (<[b := bs_remove sb a]> (<[a := bs_remove sa b]> (nodes g))))
    | _, _ => None
    end.
Proof.
  intros Hab; unfold remove_edge.
  destruct (nodes g !! a); [|reflexivity].
  rewrite list_lookup_insert_ne by exact Hab.
  destruct (nodes g !! b); reflexivity.
Qed.

Ltac lookup_bounds :=
  repeat match goal with
  | H : _ !! _ = Some _ |- _ => apply lookup_lt_Some in H
  | H : _ !! _ = None |- _ => apply lookup_ge_None in H
  end.

Lemma add_edge_None_iff (g : Graph) a b :
  add_edge g a b = None <-> a <> b /\ (length (nodes g) <= a \/ length (nodes g) <= b).
Proof.
  destruct (Nat.eq_dec a b) as [<-|Hab].
  - unfold add_edge; rewrite Nat.eqb_refl; split; [discriminate | tauto].
  - rewrite add_edge_unfold by exact Hab.
    destruct (nodes g !! a) eqn:Ea, (nodes g !! b) eqn:Eb; lookup_bounds;
      intuition (try discriminate; try lia).
Qed.

Lemma remove_edge_None_iff (g : Graph) a b :
  remove_edge g a b = None <-> length (nodes g) <= a \/ length (nodes g) <= b.
Proof.
  destruct (Nat.eq_dec a b) as [<-|Hab].
  - unfold remove_edge; destruct (nodes g !! a) eqn:Ea; lookup_bounds.
    + rewrite list_lookup_insert_eq by exact Ea; split; [discriminate | lia].
    + split; [lia | reflexivity].
  - rewrite remove_edge_unfold by exact Hab.
    destruct (nodes g !! a) eqn:Ea, (nodes g !! b) eqn:Eb; lookup_bounds;
      intuition (try discriminate; try lia).
Qed.

Lemma add_edge_bounds (g g' : Graph) a b :
  add_edge g a b = Some g' -> a <> b -> a < length (nodes g) /\ b < length (nodes g).
Proof.
  intros H Hab.
  destruct (Nat.lt_ge_cases a (length (nodes g))), (Nat.lt_ge_cases b (length (nodes g)));
    try (split; assumption);
    exfalso; assert (add_edge g a b = None) by (apply add_edge_None_iff; split; [exact Hab | lia]);
    congruence.
Qed.

Lemma remove_edge_bounds (g g' : Graph) a b :
  remove_edge g a b = Some g' -> a < length (nodes g) /\ b < length (nodes g).
Proof.
  intros H.
  destruct (Nat.lt_ge_cases a (length (nodes g))), (Nat.lt_ge_cases b (length (nodes g)));
    try (split; assumption);
    exfalso; assert (remove_edge g a b = None) by (apply remove_edge_None_iff; lia);
    congruence.
Qed.

Lemma add_node_preserves (g : Graph) :
  symmetric g -> in_bounds g -> symmetric (fst (add_node g)) /\ in_bounds (fst (add_node g)).
Proof.
  unfold symmetric, in_bounds; intros Hs Hbd; split; intros x y; rewrite ?add_node_lookup.
  - apply Hs.
  - intros Hin; cbn [add_node fst nodes]; rewrite length_app; simpl.
    specialize (Hbd _ _ Hin); lia.
Qed.

Lemma add_edge_preserves (g g' : Graph) a b :
  symmetric g -> in_bounds g -> add_edge g a b = Some g' -> symmetric g' /\ in_bounds g'.
Proof.
  intros Hs Hbd H; unfold symmetric, in_bounds in *.
  destruct (Nat.eq_dec a b) as [<-|Hab].
  { unfold add_edge in H; rewrite Nat.eqb_refl in H; injection H as <-; auto. }
  destruct (add_edge_bounds g g' a b H Hab) as [Ha Hb].
  pose proof (fun c x => add_edge_In g g' a b c x Ha Hb H) as He.
  destruct (He 0 0) as [Hlen _].
  split; intros x y.
  - split; intros H0; apply He; apply He in H0; specialize (Hs x y); intuition congruence.
  - intros H0; rewrite Hlen; apply He in H0 as [H0|[_ [[-> ->]|[-> ->]]]]; eauto.
Qed.

Lemma remove_edge_preserves (g g' : Graph) a b :
  symmetric g -> in_bounds g -> remove_edge g a b = Some g' -> symmetric g' /\ in_bounds g'.
Proof.
  intros Hs Hbd H; unfold symmetric, in_bounds in *.
  destruct (remove_edge_bounds g g' a b H) as [Ha Hb].
  pose proof (fun c x => remove_edge_In g g' a b c x Ha Hb H) as He.
  destruct (He 0 0) as [Hlen _].
  split; intros x y.
  - split; intros H0; apply He; apply He in H0; specialize (Hs x y); intuition congruence.
  - intros H0; rewrite Hlen; apply He in H0 as [H0 _]; eauto.
Qed.

Lemma bs_remove_add (s : bitset) x : bs_remove (bs_add s x) x = bs_remove s x.
Proof.
  unfold bs_remove; induction s as [|y r IH]; simpl.
  - rewrite Nat.eqb_refl; reflexivity.
  - destruct (x <? y) eqn:E1; simpl; [rewrite Nat.eqb_refl; reflexivity|].
    destruct (x =? y) eqn:E2; simpl.
    + apply Nat.eqb_eq in E2; subst; reflexivity.
    + rewrite IH; reflexivity.
Qed.

Lemma bs_remove_absent (s : bitset) x : ~ In x s -> bs_remove s x = s.
Proof.
  unfold bs_remove; induction s as [|y r IH]; simpl; intros H; [reflexivity|].
  destruct (y =? x) eqn:E; [apply Nat.eqb_eq in E; subst; tauto|].
  simpl; rewrite IH by tauto; reflexivity.
Qed.

Lemma remove_edge_absent (g : Graph) a b :
  a < length (nodes g) -> b < length (nodes g) ->
  ~ In b (nodes g !!! a) -> ~ In a (nodes g !!! b) -> remove_edge g a b = Some g.
Proof.
  destruct g as [G]; cbn [nodes]; intros Ha Hb Hba Hab.
  rewrite remove_edge_spec by assumption; cbn [nodes]; do 2 f_equal.
  apply list_eq_total; [rewrite !length_insert; reflexivity|].
  intros i Hi; rewrite !length_insert in Hi.
  destruct (Nat.eq_dec i b), (Nat.eq_dec i a); subst; simpl_insert;
    try rewrite bs_remove_idem; try (rewrite bs_remove_absent by assumption); reflexivity.
Qed.

(** [TBitSet] iterates in ascending order: the adjacency lists the API
    builds are strictly increasing. *)
Lemma bs_add_sorted (s : bitset) x : StronglySorted lt s -> StronglySorted lt (bs_add s x).
Proof.
  induction 1 as [|y r Hr IH Hall]; simpl; [repeat constructor|].
  destruct (x <? y) eqn:E1.
  - apply Nat.ltb_lt in E1; constructor; [constructor; assumption|].
    constructor; [exact E1|]; eapply Forall_impl; [exact Hall | intros; lia].
  - destruct (x =? y) eqn:E2; [constructor; assumption|].
    constructor; [exact IH|]; apply List.Forall_forall; intros z Hz.
    apply bs_add_In in Hz as [->|Hz].
    + apply Nat.ltb_ge in E1; apply Nat.eqb_neq in E2; lia.
    + rewrite List.Forall_forall in Hall; auto.
Qed.

Lemma filter_sorted (f : nat -> bool) (s : bitset) :
  StronglySorted lt s -> StronglySorted lt (List.filter f s).
Proof.
  induction 1 as [|y r Hr IH Hall]; simpl; [constructor|].
  destruct (f y); [|exact IH].
  constructor; [exact IH|]; apply List.Forall_forall; intros z Hz.
  apply filter_In in Hz as [Hz _]; rewrite List.Forall_forall in Hall; auto.
Qed.

Lemma sorted_NoDup (s : bitset) : StronglySorted lt s -> List.NoDup s.
Proof.
  induction 1 as [|y r Hr IH Hall]; constructor; [|exact IH].
  intros Hin; rewrite List.Forall_forall in Hall; specialize (Hall _ Hin); lia.
Qed.

Lemma bs_add_remove (s : bitset) x : StronglySorted lt s -> In x s -> bs_add (bs_remove s x) x = s.
Proof.
  induction 1 as [|y r Hr IH Hall]; [intros []|].
  rewrite List.Forall_forall in Hall.
  intros [<-|Hin].
  - unfold bs_remove; simpl; rewrite Nat.eqb_refl; simpl.
    change (List.filter _ r) with (bs_remove r y).
    rewrite bs_remove_absent by (intros Hy; specialize (Hall _ Hy); lia).
    destruct r as [|z r]; simpl; [reflexivity|].
    assert (y < z) by (apply Hall; left; reflexivity).
    destruct (y <? z) eqn:E; [reflexivity | apply Nat.ltb_ge in E; lia].
  - assert (Hyx : y < x) by auto.
    unfold bs_remove; simpl.
    destruct (y =? x) eqn:E; [apply Nat.eqb_eq in E; lia|]; simpl.
    destruct (x <? y) eqn:E1; [apply Nat.ltb_lt in E1; lia|].
    destruct (x =? y) eqn:E2; [apply Nat.eqb_eq in E2; lia|].
    change (List.filter _ r) with (bs_remove r x); rewrite IH by exact Hin; reflexivity.
Qed.

Lemma reachable_sorted (g : Graph) : reachable g -> forall a, StronglySorted lt (nodes g !!! a).
Proof.
  induction 1 as [| g _ IH | g a b g' _ IH Ha Hb H | g a b g' _ IH Ha Hb H]; intros c.
  - cbn; rewrite lookup_total_nil; constructor.
  - rewrite add_node_lookup; apply IH.
  - destruct (Nat.eq_dec a b) as [<-|Hab].
    + unfold add_edge in H; rewrite Nat.eqb_refl in H; injection H as <-; apply IH.
    + rewrite add_edge_spec in H by assumption; injection H as <-; cbn [nodes].
      destruct (Nat.eq_dec c b), (Nat.eq_dec c a); subst; simpl_insert;
        try apply bs_add_sorted; try congruence; apply IH.
  - rewrite remove_edge_spec in H by assumption; injection H as <-; cbn [nodes].
    destruct (Nat.eq_dec c b), (Nat.eq_dec c a); subst; simpl_insert;
      unfold bs_remove; repeat apply filter_sorted; apply IH.
Qed.

Lemma reachable_degree (g : Graph) a :
  reachable g -> a < length (nodes g) -> S (length (nodes g !!! a)) <= length (nodes g).
Proof.
  intros Hr Ha; destruct (reachable_invariants g Hr) as (_ & Hbd & Hir).
  rewrite <- (length_seq (length (nodes g)) 0).
  apply (List.NoDup_incl_length (l := a :: nodes g !!! a)).
  - constructor; [apply Hir | apply sorted_NoDup, reachable_sorted, Hr].
  - intros x [<-|Hx]; apply in_seq; [lia|].
    specialize (Hbd _ _ Hx); lia.
Qed.

Lemma degrees_fit_intro (g : Graph) :
  (forall a, a < length (nodes g) -> (bs_count (nodes g !!! a) < usize_max)%N) ->
  degrees_fit g = true.
Proof.
  unfold degrees_fit; destruct g as [G]; cbn [nodes].
  induction G as [|s G IH]; intros H; [reflexivity|].
  simpl; apply andb_true_iff; split.
  - apply N.ltb_lt; apply (H 0); simpl; lia.
  - apply IH; intros a Ha; apply (H (S a)); simpl; lia.
Qed.

Lemma reachable_degrees_fit (g : Graph) :
  reachable g -> (N.of_nat (length (nodes g)) <= usize_max)%N -> degrees_fit g = true.
Proof.
  intros Hr Hn; apply degrees_fit_intro; intros a Ha.
  pose proof (reachable_degree g a Hr Ha); unfold bs_count; lia.
Qed.

Lemma reachable_check (g : Graph) : reachable g -> check_invariants g = true.
Proof.
  intros Hr; destruct (reachable_invariants g Hr) as (Hs & Hb & _).
  apply check_invariants_spec; split; assumption.
Qed.

Lemma max_degree_le (g : Graph) m :
  (forall a, (bs_count (nodes g !!! a) <= m)%N) -> (max_degree g <= m)%N.
Proof.
  unfold max_degree; destruct g as [G]; cbn [nodes].
  induction G as [|s G IH]; intros H; simpl; [lia|].
  apply N.max_lub; [exact (H 0) | apply IH; intros a; exact (H (S a))].
Qed.

(** ** The extra properties *)

(** [check_invariants] passes exactly when adjacency is symmetric and every
    stored neighbour is a node of the graph. *)
Theorem check_invariants_iff (g : Graph) :
  check_invariants g = true <->
  (forall a b, In a (nodes g !!! b) <-> In b (nodes g !!! a)) /\
  (forall a b, In b (nodes g !!! a) -> b < length (nodes g)).
Proof. apply check_invariants_spec. Qed.

(** [add_edge a b] with valid ids keeps the number of nodes and adds [b] to
    the neighbours of [a] and [a] to those of [b], and nothing else; when
    [a = b] it changes nothing. *)
Theorem add_edge_effect (g : Graph) a b :
  a < length (nodes g) -> b < length (nodes g) ->
  exists g', add_edge g a b = Some g' /\ length (nodes g') = length (nodes g) /\
    forall c x, In x (nodes g' !!! c) <->
      In x (nodes g !!! c) \/ (a <> b /\ ((c = a /\ x = b) \/ (c = b /\ x = a))).
Proof.
  intros Ha Hb; destruct (add_edge g a b) as [g'|] eqn:E.
  - exists g'; split; [reflexivity|]; split.
    + apply (add_edge_In g g' a b 0 0 Ha Hb E).
    + intros c x; apply (add_edge_In g g' a b c x Ha Hb E).
  - apply add_edge_None_iff in E; lia.
Qed.

Lemma add_edge_effect_witness :
  exists g', add_edge path3 0 2 = Some g' /\ length (nodes g') = length (nodes path3) /\
    forall c x, In x (nodes g' !!! c) <->
      In x (nodes path3 !!! c) \/ (0 <> 2 /\ ((c = 0 /\ x = 2) \/ (c = 2 /\ x = 0))).
Proof. apply (add_edge_effect path3 0 2); cbn; lia. Defined.

(** [remove_edge a b] with valid ids keeps the number of nodes and removes
    [b] from the neighbours of [a] and [a] from those of [b], and nothing
    else. *)
Theorem remove_edge_effect (g : Graph) a b :
  a < length (nodes g) -> b < length (nodes g) ->
  exists g', remove_edge g a b = Some g' /\ length (nodes g') = length (nodes g) /\
    forall c x, In x (nodes g' !!! c) <->
      In x (nodes g !!! c) /\ ~ (c = a /\ x = b) /\ ~ (c = b /\ x = a).
Proof.
  intros Ha Hb; destruct (remove_edge g a b) as [g'|] eqn:E.
  - exists g'; split; [reflexivity|]; split.
    + apply (remove_edge_In g g' a b 0 0 Ha Hb E).
    + intros c x; apply (remove_edge_In g g' a b c x Ha Hb E).
  - apply remove_edge_None_iff in E; lia.
Qed.

Lemma remove_edge_effect_witness :
  exists g', remove_edge path3 0 1 = Some g' /\ length (nodes g') = length (nodes path3) /\
    forall c x, In x (nodes g' !!! c) <->
      In x (nodes path3 !!! c) /\ ~ (c = 0 /\ x = 1) /\ ~ (c = 1 /\ x = 0).
Proof. apply (remove_edge_effect path3 0 1); cbn; lia. Defined.

(** [add_edge a b] panics exactly when [a <> b] and one of the ids is out
    of range ([add_edge a a] does nothing, even for an invalid [a]);
    [remove_edge a b] panics exactly when one of the ids is out of range,
    also when [a = b]. *)
Theorem edge_ops_panic_iff (g : Graph) a b :
  (add_edge g a b = None <-> a <> b /\ (length (nodes g) <= a \/ length (nodes g) <= b)) /\
  (remove_edge g a b = None <-> length (nodes g) <= a \/ length (nodes g) <= b).
Proof. split; [apply add_edge_None_iff | apply remove_edge_None_iff]. Qed.

(** The order of the two ids does not matter: [add_edge a b] and
    [add_edge b a] give the same graph or both panic, and likewise for
    [remove_edge]. *)
Theorem edge_ops_comm (g : Graph) a b :
  add_edge g a b = add_edge g b a /\ remove_edge g a b = remove_edge g b a.
Proof.
  destruct (Nat.eq_dec a b) as [<-|Hab]; [split; reflexivity|].
  rewrite !add_edge_unfold, !remove_edge_unfold by congruence.
  destruct (nodes g !! a), (nodes g !! b); try (split; reflexivity).
  split; do 2 f_equal; apply list_insert_insert_ne; congruence.
Qed.

(** [add_node], and every [add_edge] or [remove_edge] that does not panic,
    turn a graph passing [check_invariants] into one that passes it. *)
Theorem ops_preserve_invariants (g : Graph) :
  check_invariants g = true ->
  check_invariants (fst (add_node g)) = true /\
  (forall a b g', add_edge g a b = Some g' -> check_invariants g' = true) /\
  (forall a b g', remove_edge g a b = Some g' -> check_invariants g' = true).
Proof.
  intros Hc; apply check_invariants_spec in Hc as [Hs Hb].
  split; [|split]; [| intros a b g' H | intros a b g' H]; apply check_invariants_spec.
  - apply add_node_preserves; assumption.
  - apply (add_edge_preserves g g' a b Hs Hb H).
  - apply (remove_edge_preserves g g' a b Hs Hb H).
Qed.

Lemma ops_preserve_invariants_witness :
  check_invariants (fst (add_node pair_graph)) = true /\
  (forall a b g', add_edge pair_graph a b = Some g' -> check_invariants g' = true) /\
  (forall a b g', remove_edge pair_graph a b = Some g' -> check_invariants g' = true).
Proof. apply ops_preserve_invariants; vm_compute; reflexivity. Defined.

(** [remove_edge a b] with valid ids between two nodes that are not
    neighbours leaves the graph unchanged. *)
Theorem remove_absent_edge_noop (g : Graph) a b :
  a < length (nodes g) -> b < length (nodes g) ->
  ~ In b (nodes g !!! a) -> ~ In a (nodes g !!! b) -> remove_edge g a b = Some g.
Proof. apply remove_edge_absent. Qed.

Lemma remove_absent_edge_noop_witness : remove_edge path3 0 2 = Some path3.
Proof. apply remove_absent_edge_noop; cbn; [lia | lia | intuition lia | intuition lia]. Defined.

(** Adding an edge that is not there and then removing it gives back the
    original graph. *)
Theorem add_then_remove_edge (g : Graph) a b :
  a < length (nodes g) -> b < length (nodes g) ->
  ~ In b (nodes g !!! a) -> ~ In a (nodes g !!! b) ->
  exists g1, add_edge g a b = Some g1 /\ remove_edge g1 a b = Some g.
Proof.
  intros Ha Hb Hba Hab; destruct (Nat.eq_dec a b) as [<-|Hne].
  - exists g; split; [unfold add_edge; rewrite Nat.eqb_refl; reflexivity|].
    apply remove_edge_absent; assumption.
  - destruct g as [G]; cbn [nodes] in *.
    rewrite add_edge_spec by assumption; eexists; split; [reflexivity|].
    rewrite remove_edge_spec by (cbn [nodes]; rewrite !length_insert; assumption).
    cbn [nodes]; do 2 f_equal.
    apply list_eq_total; [rewrite !length_insert; reflexivity|].
    intros i Hi; rewrite !length_insert in Hi.
    destruct (Nat.eq_dec i b), (Nat.eq_dec i a); subst; simpl_insert;
      first [congruence | rewrite bs_remove_add, bs_remove_absent by assumption; reflexivity
            | reflexivity].
Qed.

Lemma add_then_remove_edge_witness :
  exists g1, add_edge path3 0 2 = Some g1 /\ remove_edge g1 0 2 = Some path3.
Proof. apply add_then_remove_edge; cbn; [lia | lia | intuition lia | intuition lia]. Defined.

(** On a graph built through the API, removing an existing edge and adding
    it back gives back the original graph. *)
Theorem remove_then_add_edge (g : Graph) a b :
  reachable g -> a < length (nodes g) -> b < length (nodes g) -> In b (nodes g !!! a) ->
  exists g1, remove_edge g a b = Some g1 /\ add_edge g1 a b = Some g.
Proof.
  intros Hr Ha Hb Hin.
  destruct (reachable_invariants g Hr) as (Hs & _ & Hir).
  pose proof (reachable_sorted g Hr) as Hso.
  assert (Hne : a <> b) by (intros <-; exact (Hir a Hin)).
  assert (Hin' : In a (nodes g !!! b)) by (apply Hs; exact Hin).
  destruct g as [G]; cbn [nodes] in *.
  rewrite remove_edge_spec by assumption; eexists; split; [reflexivity|].
  rewrite add_edge_spec by (cbn [nodes]; rewrite ?length_insert; assumption).
  cbn [nodes]; do 2 f_equal.
  apply list_eq_total; [rewrite !length_insert; reflexivity|].
  intros i Hi; rewrite !length_insert in Hi.
  destruct (Nat.eq_dec i b), (Nat.eq_dec i a); subst; simpl_insert;
    first [congruence | rewrite bs_add_remove by auto; reflexivity | reflexivity].
Qed.

Lemma remove_then_add_edge_witness :
  exists g1, remove_edge pair_graph 0 1 = Some g1 /\ add_edge g1 0 1 = Some pair_graph.
Proof. apply remove_then_add_edge; [exact reachable_pair | cbn; lia | cbn; lia | cbn; auto]. Defined.

(** On a graph built through the API, every node has at most [n - 1]
    neighbours, [n] being the number of nodes. *)
Theorem reachable_degree_bound (g : Graph) a :
  reachable g -> a < length (nodes g) -> length (nodes g !!! a) < length (nodes g).
Proof. intros Hr Ha; pose proof (reachable_degree g a Hr Ha); lia. Qed.

Lemma reachable_degree_bound_witness :
  length (nodes pair_graph !!! 0) < length (nodes pair_graph).
Proof. apply reachable_degree_bound; [exact reachable_pair | cbn; lia]. Defined.

(** When the degrees fit in a [usize], [minimal_coloring] panics exactly
    when [check_invariants] does. *)
Theorem minimal_coloring_None_iff (g : Graph) :
  degrees_fit g = true -> (minimal_coloring g = None <-> check_invariants g = false).
Proof.
  intros Hd; destruct (check_invariants g) eqn:Hc.
  - destruct (coloring_run g Hc Hd) as (st & cs & _ & _ & _ & _ & _ & Hm & _).
    rewrite Hm; split; discriminate.
  - unfold minimal_coloring; rewrite Hc; split; reflexivity.
Qed.

Lemma minimal_coloring_None_iff_witness :
  minimal_coloring one_way_graph = None <-> check_invariants one_way_graph = false.
Proof. apply minimal_coloring_None_iff; vm_compute; reflexivity. Defined.

(** On every graph passing [check_invariants] (self-loops included) whose
    degrees fit in a [usize], [minimal_coloring] returns one color per
    node, each below [k], with [k <= usize::MAX]: no node keeps the
    sentinel [usize::MAX]. *)
Theorem minimal_coloring_shape (g : Graph) :
  check_invariants g = true -> degrees_fit g = true ->
  exists c, minimal_coloring g = Some c /\
    length (Coloring.nodes c) = length (nodes g) /\ (Coloring.k c <= usize_max)%N /\
    forall a, a < length (nodes g) -> (Coloring.nodes c !!! a < Coloring.k c)%N.
Proof.
  intros Hc Hd.
  destruct (coloring_run g Hc Hd) as (st & cs & _ & _ & Hi & _ & _ & Hm & Hl & Hcol & _).
  exists (Coloring.Build (st_k st) cs); cbn [Coloring.k Coloring.nodes].
  split; [exact Hm|]; split; [exact Hl|]; split; [apply (inv_kmax _ _ Hi) | exact Hcol].
Qed.

Lemma minimal_coloring_shape_witness :
  exists c, minimal_coloring loop_graph = Some c /\
    length (Coloring.nodes c) = length (nodes loop_graph) /\ (Coloring.k c <= usize_max)%N /\
    forall a, a < length (nodes loop_graph) -> (Coloring.nodes c !!! a < Coloring.k c)%N.
Proof. apply minimal_coloring_shape; vm_compute; reflexivity. Defined.

(** On every graph built through the API with at most [usize::MAX] nodes,
    [minimal_coloring] does not panic and returns a valid coloring. *)
Theorem reachable_coloring_valid (g : Graph) :
  reachable g -> (N.of_nat (length (nodes g)) <= usize_max)%N ->
  exists c, minimal_coloring g = Some c /\ valid_coloring g c.
Proof.
  intros Hr Hn.
  pose proof (reachable_check g Hr) as Hc.
  pose proof (reachable_degrees_fit g Hr Hn) as Hd.
  destruct (reachable_invariants g Hr) as (Hs & Hb & Hir).
  destruct (coloring_run g Hc Hd) as (st & cs & _ & Ha & Hi & _ & _ & Hm & Hl & Hcol & Hdist).
  assert (Hcov : forall x, In x (st_stack st) <-> x < length (nodes g)).
  { intros x; rewrite <- (inv_cover _ _ Hi x), Ha; simpl; tauto. }
  exists (Coloring.Build (st_k st) cs); split; [exact Hm|].
  split; [exact Hl|]; split.
  - intros a b Ha' Hab; cbn [Coloring.nodes].
    apply (Hdist Hs); [apply Hcov; exact Ha' | apply Hcov; exact (Hb a b Hab) | exact Hab |].
    intros <-; exact (Hir a Hab).
  - intros a Ha'; apply Hcol; exact Ha'.
Qed.

Lemma reachable_coloring_valid_witness :
  exists c, minimal_coloring pair_graph = Some c /\ valid_coloring pair_graph c.
Proof. apply reachable_coloring_valid; [exact reachable_pair | vm_compute; discriminate]. Defined.

(** On every graph built through the API with at most [usize::MAX] nodes,
    the [k] of [minimal_coloring] is at most the number of nodes. *)
Theorem reachable_k_le_nodes (g : Graph) :
  reachable g -> (N.of_nat (length (nodes g)) <= usize_max)%N ->
  exists c, minimal_coloring g = Some c /\ (Coloring.k c <= N.of_nat (length (nodes g)))%N.
Proof.
  intros Hr Hn.
  pose proof (reachable_check g Hr) as Hc.
  pose proof (reachable_degrees_fit g Hr Hn) as Hd.
  destruct (coloring_run g Hc Hd) as (st & cs & Hst & _ & Hi & _ & _ & Hm & _).
  exists (Coloring.Build (st_k st) cs); split; [exact Hm|]; cbn [Coloring.k].
  destruct (Nat.eq_dec (length (nodes g)) 0) as [E0|Hpos].
  - apply (run_k_zero_iff g st Hc Hd Hst) in E0; rewrite E0; lia.
  - pose proof (inv_kdeg _ _ Hi) as Hk.
    change (fold_right N.max 0%N (map bs_count (nodes g))) with (max_degree g) in Hk.
    assert (Hmax : (max_degree g <= N.of_nat (length (nodes g) - 1))%N).
    { apply max_degree_le; intros a; unfold bs_count.
      destruct (Nat.lt_ge_cases a (length (nodes g))) as [Ha|Ha].
      - pose proof (reachable_degree g a Hr Ha); lia.
      - rewrite lookup_total_oob by exact Ha; cbn; lia. }
    lia.
Qed.

Lemma reachable_k_le_nodes_witness :
  exists c, minimal_coloring pair_graph = Some c /\
    (Coloring.k c <= N.of_nat (length (nodes pair_graph)))%N.
Proof. apply reachable_k_le_nodes; [exact reachable_pair | vm_compute; discriminate]. Defined.
